(** * MicroInvest: the projection and allocation engine

    A shallow embedding of the numeric core of the application:
    - [generatePortfolioRecommendation] (utils/investmentEngine),
    - [calculateRequiredMonthly] (components/GoalTracker.tsx),
    - [generateDCAData] (components/DCASimulator.tsx),
    - the grouping of components/PortfolioHeatmap.tsx and the loop of
      components/HistoricalBacktest.tsx.

    The program is embedded twice.  In the modules [JS], [Engine],
    [GoalTracker], [DCASimulator], ... a finite number is an exact
    rational: they carry the properties that do not depend on rounding
    (the branches taken, the tables, the shape of the series, results
    that are exact or kept by every monotone rounding).  In [B64],
    [Engine64], [GoalTracker64] and [DCASimulator64] the same
    expressions are evaluated as binary64 does, with its rounding, its
    overflow to the infinities and its signed zero: they carry the
    properties of the computed values.  [Math.pow], which ECMAScript
    leaves implementation-approximated, is a parameter there, assumed
    [accurate]. *)

From Stdlib Require Import QArith Qround Qpower Qabs Qminmax ZArith.
From Stdlib Require Import List String Bool Lia Lqa.
From Stdlib Require DecimalString.
Import ListNotations.

Local Open Scope Q_scope.

(** ** JavaScript numbers and values *)

Module JS.

Inductive number : Type :=
| Num (q : Q)
| NaN
| PosInf
| NegInf.

(** What a property read or a variable can hold in the modelled code:
    a number, some object or function, or [undefined]. *)
Inductive value : Type :=
| VNumber (n : number)
| VObject
| VUndefined.

Definition is_finite (x : number) : bool :=
  match x with Num _ => true | _ => false end.

(** The infinity of a given sign; no sign gives [NaN]. *)
Definition signed_inf (c : comparison) : number :=
  match c with Gt => PosInf | Lt => NegInf | Eq => NaN end.

Definition sgn (x : number) : comparison :=
  match x with
  | Num q => q ?= 0
  | PosInf => Gt
  | NegInf => Lt
  | NaN => Eq
  end.

Definition sgn_mul (a b : comparison) : comparison :=
  match a, b with
  | Eq, _ | _, Eq => Eq
  | Gt, Gt | Lt, Lt => Gt
  | _, _ => Lt
  end.

Definition neg (x : number) : number :=
  match x with
  | Num q => Num (- q)
  | NaN => NaN
  | PosInf => NegInf
  | NegInf => PosInf
  end.

(** [x + y] *)
Definition add (x y : number) : number :=
  match x, y with
  | NaN, _ | _, NaN => NaN
  | Num a, Num b => Num (a + b)
  | PosInf, NegInf | NegInf, PosInf => NaN
  | PosInf, _ | _, PosInf => PosInf
  | NegInf, _ | _, NegInf => NegInf
  end.

(** [x - y] *)
Definition sub (x y : number) : number := add x (neg y).

(** [x * y]: an infinity times zero is [NaN]. *)
Definition mul (x y : number) : number :=
  match x, y with
  | NaN, _ | _, NaN => NaN
  | Num a, Num b => Num (a * b)
  | _, _ => signed_inf (sgn_mul (sgn x) (sgn y))
  end.

(** [x / y]: a finite nonzero value over zero is an infinity, [0 / 0]
    and [Infinity / Infinity] are [NaN]. *)
Definition div (x y : number) : number :=
  match x, y with
  | NaN, _ | _, NaN => NaN
  | Num a, Num b =>
      if Qeq_bool b 0 then signed_inf (a ?= 0) else Num (a / b)
  | Num _, _ => Num 0
  | _, Num b => if Qeq_bool b 0 then x else signed_inf (sgn_mul (sgn x) (b ?= 0))
  | _, _ => NaN
  end.

Definition is_integer (q : Q) : bool :=
  Qeq_bool (inject_Z (Qfloor q)) q.

Definition is_odd_integer (q : Q) : bool :=
  is_integer q && Z.odd (Qfloor q).

(** [Math.pow(x, y)].  For finite arguments the result is exact when the
    exponent is an integer, which is the only kind the engine passes
    (see [totalMonths_integral]); a positive base with a fractional
    exponent has no rational value, and the model then uses the integer
    part of the exponent. *)
Definition pow (x y : number) : number :=
  match y with
  | NaN => NaN
  | Num e =>
      if Qeq_bool e 0 then Num 1 else
      match x with
      | NaN => NaN
      | PosInf => if Qlt_le_dec 0 e then PosInf else Num 0
      | NegInf =>
          if Qlt_le_dec 0 e
          then (if is_odd_integer e then NegInf else PosInf)
          else Num 0
      | Num b =>
          if Qeq_bool b 0
          then (if Qlt_le_dec 0 e then Num 0 else PosInf)
          else if negb (is_integer e) && (if Qlt_le_dec b 0 then true else false)
          then NaN
          else Num (b ^ Qfloor e)
      end
  | PosInf =>
      match x with
      | NaN => NaN
      | Num b => match Qabs b ?= 1 with
                 | Gt => PosInf | Eq => NaN | Lt => Num 0
                 end
      | _ => PosInf
      end
  | NegInf =>
      match x with
      | NaN => NaN
      | Num b => match Qabs b ?= 1 with
                 | Gt => Num 0 | Eq => NaN | Lt => PosInf
                 end
      | _ => Num 0
      end
  end.

(** [Math.round] of a finite value: the nearest integer, a tie going up. *)
Definition round_Q (q : Q) : Z := Qfloor (q + 0.5).

(** [Math.round(x)] *)
Definition round (x : number) : number :=
  match x with
  | Num q => Num (inject_Z (round_Q q))
  | _ => x
  end.

(** [x === 0] *)
Definition is_zero (x : number) : bool :=
  match x with
  | Num q => Qeq_bool q 0
  | _ => false
  end.

(** [ToBoolean] *)
Definition truthy (v : value) : bool :=
  match v with
  | VNumber (Num q) => negb (Qeq_bool q 0)
  | VNumber NaN => false
  | VNumber _ => true
  | VObject => true
  | VUndefined => false
  end.

(** [a || b] *)
Definition or (a b : value) : value := if truthy a then a else b.

(** [ToNumber]: the objects met here (functions, [Object.prototype])
    convert to [NaN], and so does [undefined]. *)
Definition to_number (v : value) : number :=
  match v with
  | VNumber n => n
  | VObject => NaN
  | VUndefined => NaN
  end.

(** The property names every object literal inherits from
    [Object.prototype]; each holds a function or an object. *)
Definition Object_prototype : list string :=
  [ "constructor"; "hasOwnProperty"; "isPrototypeOf";
    "propertyIsEnumerable"; "toLocaleString"; "toString"; "valueOf";
    "__proto__"; "__defineGetter__"; "__defineSetter__";
    "__lookupGetter__"; "__lookupSetter__" ]%string.

Fixpoint own (props : list (string * Q)) (key : string) : option Q :=
  match props with
  | [] => None
  | (k, v) :: rest => if String.eqb k key then Some v else own rest key
  end.

(** [obj[key]] on an object literal with numeric properties: an own
    property first, then the prototype chain, else [undefined]. *)
Definition get (props : list (string * Q)) (key : string) : value :=
  match own props key with
  | Some q => VNumber (Num q)
  | None =>
      if existsb (String.eqb key) Object_prototype then VObject
      else VUndefined
  end.

End JS.

Declare Scope js_scope.
Delimit Scope js_scope with js.
Infix "+" := JS.add : js_scope.
Infix "-" := JS.sub : js_scope.
Infix "*" := JS.mul : js_scope.
Infix "/" := JS.div : js_scope.
Coercion JS.Num : Q >-> JS.number.

Import JS.
Local Open Scope string_scope.

(** ** Data model (utils/investmentEngine) *)

Record Investment : Type := mkInvestment {
  symbol : string;
  name : string;
  allocation : Q;
  expectedReturn : Q;
  riskLevel : string;
  description : string
}.

Record PortfolioData : Type := mkPortfolioData {
  investments : list Investment;
  totalExpectedReturn : Q;
  riskScore : Z;
  monthlyAmount : number;
  projectedValue : number;
  timeframe : string
}.

Record BudgetRiskData : Type := mkBudgetRiskData {
  monthlyBudget : number;
  riskTolerance : string;
  investmentGoal : string;
  timeHorizon : string
}.

(** [{ ...inv, allocation: a }] *)
Definition with_allocation (inv : Investment) (a : Q) : Investment :=
  {| symbol := symbol inv;
     name := name inv;
     allocation := a;
     expectedReturn := expectedReturn inv;
     riskLevel := riskLevel inv;
     description := description inv |}.

Definition INVESTMENT_OPTIONS : list Investment :=
  [ {| symbol := "VOO";
       name := "Vanguard S&P 500 ETF";
       allocation := 0;
       expectedReturn := 10.5;
       riskLevel := "low";
       description := "Tracks the S&P 500 index, providing broad market exposure with low fees. Perfect for long-term growth with reduced volatility." |};
    {| symbol := "VTI";
       name := "Vanguard Total Stock Market ETF";
       allocation := 0;
       expectedReturn := 10.8;
       riskLevel := "medium";
       description := "Invests in the entire U.S. stock market, including small, mid, and large-cap stocks for comprehensive market exposure." |};
    {| symbol := "AAPL";
       name := "Apple Inc.";
       allocation := 0;
       expectedReturn := 12.0;
       riskLevel := "medium";
       description := "Blue-chip technology stock with strong fundamentals and consistent growth. A stable choice for growth-oriented portfolios." |};
    {| symbol := "MSFT";
       name := "Microsoft Corporation";
       allocation := 0;
       expectedReturn := 11.5;
       riskLevel := "medium";
       description := "Leading technology company with diversified revenue streams in cloud computing, productivity software, and gaming." |};
    {| symbol := "BND";
       name := "Vanguard Total Bond Market ETF";
       allocation := 0;
       expectedReturn := 4.2;
       riskLevel := "low";
       description := "Provides exposure to the entire U.S. investment-grade bond market. Offers stability and income generation." |};
    {| symbol := "QQQ";
       name := "Invesco QQQ ETF";
       allocation := 0;
       expectedReturn := 13.2;
       riskLevel := "high";
       description := "Tracks the Nasdaq-100 index, focusing on technology and growth companies. Higher potential returns with increased volatility." |} ].

(** [{ ...INVESTMENT_OPTIONS[i], allocation: a }].  Every index the engine
    uses is within the table; spreading [undefined] would leave an object
    with the allocation alone. *)
Definition option_with_allocation (i : nat) (a : Q) : Investment :=
  match nth_error INVESTMENT_OPTIONS i with
  | Some inv => with_allocation inv a
  | None => mkInvestment "" "" a 0 "" ""
  end.

(** ** The recommendation engine *)

Module Engine.

Definition timeMultipliers : list (string * Q) :=
  [ ("3-months", 0.25);
    ("6-months", 0.5);
    ("1-year", 1);
    ("2-years", 2);
    ("5-years", 5) ].

(** [timeMultipliers[timeHorizon] || 1] *)
Definition timeMultiplier (timeHorizon : string) : value :=
  JS.or (JS.get timeMultipliers timeHorizon) (VNumber 1).

(** The [switch (riskTolerance)]: the selected investments, the total
    expected return and the risk score. *)
Definition selection (riskTolerance : string)
  : list Investment * Q * Z :=
  if String.eqb riskTolerance "low" then
    ([ option_with_allocation 0 60;
       option_with_allocation 4 30;
       option_with_allocation 2 10 ], 7.8, 2%Z)
  else if String.eqb riskTolerance "medium" then
    ([ option_with_allocation 0 50;
       option_with_allocation 2 25;
       option_with_allocation 3 15;
       option_with_allocation 4 10 ], 9.8, 4%Z)
  else if String.eqb riskTolerance "high" then
    ([ option_with_allocation 5 40;
       option_with_allocation 1 30;
       option_with_allocation 2 20;
       option_with_allocation 3 10 ], 12.1, 7%Z)
  else
    ([ option_with_allocation 0 100 ], 10.5, 3%Z).

(** The [totalExpectedReturn] the [switch] assigns. *)
Definition selectedReturn (riskTolerance : string) : Q :=
  snd (fst (selection riskTolerance)).

(** [monthlyReturn = totalExpectedReturn / 100 / 12] *)
Definition monthlyReturn (totalExpectedReturn : number) : number :=
  let annualReturn := (totalExpectedReturn / 100)%js in
  (annualReturn / 12)%js.

(** The future value of the annuity before rounding:
    [monthlyContribution * (Math.pow(1 + monthlyReturn, totalMonths) - 1)
     / monthlyReturn]. *)
Definition futureValue
  (monthlyContribution totalExpectedReturn totalMonths : number) : number :=
  let monthlyReturn := monthlyReturn totalExpectedReturn in
  (monthlyContribution
     * (JS.pow (1 + monthlyReturn) totalMonths - 1) / monthlyReturn)%js.

(** The projection of [generatePortfolioRecommendation], as a function of
    the three values it reads: the contribution, the expected annual
    return in percent and the number of months.  It is the
    [projectFutureValue] of the specification. *)
Definition projectFutureValue
  (monthlyContribution totalExpectedReturn totalMonths : number) : number :=
  JS.round (futureValue monthlyContribution totalExpectedReturn totalMonths).

(** [totalMonths = timeMultiplier * 12] *)
Definition totalMonths (timeHorizon : string) : number :=
  (JS.to_number (timeMultiplier timeHorizon) * 12)%js.

Definition generatePortfolioRecommendation (userData : BudgetRiskData)
  : PortfolioData :=
  let monthlyBudget := monthlyBudget userData in
  let riskTolerance := riskTolerance userData in
  let timeHorizon := timeHorizon userData in
  let '(selectedInvestments, totalExpectedReturn, riskScore) :=
    selection riskTolerance in
  {| investments := selectedInvestments;
     totalExpectedReturn := totalExpectedReturn;
     riskScore := riskScore;
     monthlyAmount := monthlyBudget;
     projectedValue :=
       projectFutureValue monthlyBudget totalExpectedReturn
         (totalMonths timeHorizon);
     timeframe := timeHorizon |}.

End Engine.

(** ** components/GoalTracker.tsx *)

Module GoalTracker.

(** [calculateRequiredMonthly(targetAmount, months, annualReturn)] *)
Definition calculateRequiredMonthly
  (targetAmount months annualReturn : number) : number :=
  let monthlyReturn := (annualReturn / 100 / 12)%js in
  if JS.is_zero monthlyReturn then (targetAmount / months)%js
  else (targetAmount * monthlyReturn
          / (JS.pow (1 + monthlyReturn) months - 1))%js.

End GoalTracker.

(** ** components/DCASimulator.tsx *)

Module DCASimulator.

Record Point : Type := mkPoint {
  month : nat;
  dca : Z;
  lumpSum : Z;
  contributions : Q
}.

Definition timeMultipliers : list (string * Q) :=
  [ ("3-months", 3);
    ("6-months", 6);
    ("1-year", 12);
    ("2-years", 24);
    ("5-years", 60) ].

(** [months = timeMultipliers[timeframe] || 12] *)
Definition months (timeframe : string) : value :=
  JS.or (JS.get timeMultipliers timeframe) (VNumber 12).

(** [monthlyReturn = expectedReturn / 100 / 12] *)
Definition monthlyReturn (expectedReturn : Q) : Q :=
  expectedReturn / 100 / 12.

Section Simulation.

(** The values the closure of [generateDCAData] reads: [customMonthly]
    and [monthlyReturn], both finite, and [months], a month count. *)
Variables (customMonthly monthlyReturn : Q).

(** One pass of the loop body at [month], from the values the two
    running variables hold on entry. *)
Definition step (month : nat) (s : Q * Q) : Q * Q :=
  let '(dcaValue, lumpSumValue) := s in
  if (0 <? month)%nat
  then ((dcaValue + customMonthly) * (1 + monthlyReturn),
        lumpSumValue * (1 + monthlyReturn))
  else (dcaValue, lumpSumValue).

Definition point (month : nat) (s : Q * Q) : Point :=
  {| month := month;
     dca := JS.round_Q (fst s);
     lumpSum := JS.round_Q (snd s);
     contributions := inject_Z (Z.of_nat month) * customMonthly |}.

(** [for (let month = ...; month <= months; month++)], with [left]
    passes still to run. *)
Fixpoint loop (left month : nat) (s : Q * Q) : list Point :=
  match left with
  | O => []
  | S left' =>
      let s' := step month s in
      point month s' :: loop left' (S month) s'
  end.

(** The running variables after the passes at months [m], ..., [m + k],
    entered with [s]. *)
Fixpoint after (m : nat) (s : Q * Q) (k : nat) : Q * Q :=
  match k with
  | O => step m s
  | S k' => step (m + S k') (after m s k')
  end.

Definition generateDCAData (months : nat) : list Point :=
  let dcaValue := 0 in
  let lumpSum := customMonthly * inject_Z (Z.of_nat months) in
  let lumpSumValue := lumpSum in
  loop (S months) 0 (dcaValue, lumpSumValue).

End Simulation.

End DCASimulator.

(** ** Vocabulary of the properties *)

(** A month count as a JavaScript number. *)
Definition month_count (n : nat) : number := Num (inject_Z (Z.of_nat n)).

(** The closed form of the annuity, [c * ((1 + r)^n - 1) / r]. *)
Definition annuity (c r : Q) (n : nat) : Q :=
  c * ((1 + r) ^ Z.of_nat n - 1) / r.

(** Both numbers are finite and ordered. *)
Definition finite_le (x y : number) : Prop :=
  match x, y with Num a, Num b => a <= b | _, _ => False end.

Definition finite_lt (x y : number) : Prop :=
  match x, y with Num a, Num b => a < b | _, _ => False end.

(** [x] is finite and at most half a unit away from [goal]. *)
Definition within_rounding (x : number) (goal : Q) : Prop :=
  match x with Num v => Qabs (v - goal) <= 0.5 | _ => False end.

Definition allocationSum (l : list Investment) : Q :=
  fold_right (fun inv acc => allocation inv + acc) 0 l.

(** The symbols of a portfolio with their allocation percentages. *)
Definition template (p : PortfolioData) : list (string * Q) :=
  map (fun inv => (symbol inv, allocation inv)) (investments p).

(** [key] is one of the labels the table lists. *)
Definition recognized (props : list (string * Q)) (key : string) : bool :=
  match JS.own props key with Some _ => true | None => false end.

(** [key] is not listed and names a member of [Object.prototype]. *)
Definition inherited (props : list (string * Q)) (key : string) : bool :=
  match JS.own props key with
  | Some _ => false
  | None => existsb (String.eqb key) JS.Object_prototype
  end.

(** ** More of the JavaScript library *)

Module Math.

(** How two numbers compare; [None] when one of them is [NaN]. *)
Definition compare (x y : number) : option comparison :=
  match x, y with
  | NaN, _ | _, NaN => None
  | Num a, Num b => Some (a ?= b)%Q
  | PosInf, PosInf | NegInf, NegInf => Some Eq
  | PosInf, _ | _, NegInf => Some Gt
  | _, PosInf | NegInf, _ => Some Lt
  end.

(** [x >= y] *)
Definition ge (x y : number) : bool :=
  match compare x y with Some Gt | Some Eq => true | _ => false end.

(** [x > y] *)
Definition gt (x y : number) : bool :=
  match compare x y with Some Gt => true | _ => false end.

(** [x < y] *)
Definition lt (x y : number) : bool :=
  match compare x y with Some Lt => true | _ => false end.

(** [Math.max(x, y)] *)
Definition max (x y : number) : number :=
  match compare x y with
  | None => NaN
  | Some Lt => y
  | Some _ => x
  end.

(** [Math.min(x, y)] *)
Definition min (x y : number) : number :=
  match compare x y with
  | None => NaN
  | Some Gt => y
  | Some _ => x
  end.

(** [Math.ceil(x)] *)
Definition ceil (x : number) : number :=
  match x with
  | Num q => Num (inject_Z (Qceiling q))
  | _ => x
  end.

(** [Math.max(...xs)]: the largest of the values, [-Infinity] for none. *)
Definition max_of (xs : list number) : number :=
  fold_left max xs NegInf.

End Math.

(** ** The rest of components/GoalTracker.tsx *)

Module GoalPanel.

Definition timeMultipliers : list (string * Q) :=
  [ ("3-months", 3);
    ("6-months", 6);
    ("1-year", 12);
    ("2-years", 24);
    ("5-years", 60) ].

(** [months = timeMultipliers[timeframe] || 12] *)
Definition months (timeframe : string) : value :=
  JS.or (JS.get timeMultipliers timeframe) (VNumber 12).

(** [goalProgress = Math.min((projectedValue / goalAmount) * 100, 100)] *)
Definition goalProgress (projectedValue goalAmount : number) : number :=
  Math.min (projectedValue / goalAmount * 100)%js 100.

(** [shortfall = Math.max(goalAmount - projectedValue, 0)] *)
Definition shortfall (projectedValue goalAmount : number) : number :=
  Math.max (goalAmount - projectedValue)%js 0.

(** [surplus = Math.max(projectedValue - goalAmount, 0)] *)
Definition surplus (projectedValue goalAmount : number) : number :=
  Math.max (projectedValue - goalAmount)%js 0.

(** [requiredMonthly = calculateRequiredMonthly(goalAmount, months,
    expectedReturn)]; the arithmetic of the function converts [months] to
    a number. *)
Definition requiredMonthly
  (goalAmount : number) (timeframe : string) (expectedReturn : number)
  : number :=
  GoalTracker.calculateRequiredMonthly goalAmount
    (JS.to_number (months timeframe)) expectedReturn.

(** The text of the badge. *)
Definition badge (goalProgress : number) : string :=
  if Math.ge goalProgress 100 then "Goal Achievable"
  else if Math.lt goalProgress 80 then "Needs Adjustment"
  else "Close to Goal".

(** [shortfall > 0], the condition under which the recommendations and the
    word Shortfall are shown. *)
Definition showsShortfall (projectedValue goalAmount : number) : bool :=
  Math.gt (shortfall projectedValue goalAmount) 0.

(** Option 1: [Math.ceil(requiredMonthly - monthlyAmount)] more than the
    current monthly amount. *)
Definition moreThanCurrent (requiredMonthly monthlyAmount : number) : number :=
  Math.ceil (requiredMonthly - monthlyAmount)%js.

(** Option 2: [Math.ceil((goalAmount / projectedValue) * months)] months. *)
Definition extendedMonths (goalAmount projectedValue months : number)
  : number :=
  Math.ceil (goalAmount / projectedValue * months)%js.

(** [Math.ceil((goalAmount / projectedValue) * months) - months] months
    longer. *)
Definition monthsLonger (goalAmount projectedValue months : number)
  : number :=
  (extendedMonths goalAmount projectedValue months - months)%js.

(** [goalScenarios] *)
Definition goalScenarios (goalAmount : number) : list (number * string) :=
  [ ((goalAmount * 0.75)%js, "Conservative");
    (goalAmount, "Target");
    ((goalAmount * 1.25)%js, "Stretch") ].

End GoalPanel.

(** ** The summary of components/DCASimulator.tsx *)

Module DCAPanel.

(** [chartData = generateDCAData()].  The closure variable [months] is a
    month count of the table, or 12, or - for a label that names a member
    of [Object.prototype] - an object, for which [month <= months] is
    false at once and the loop body never runs (see
    [dca_months_cases]). *)
Definition chartData
  (customMonthly : Q) (timeframe : string) (expectedReturn : Q)
  : list DCASimulator.Point :=
  match JS.to_number (DCASimulator.months timeframe) with
  | Num q =>
      DCASimulator.generateDCAData customMonthly
        (DCASimulator.monthlyReturn expectedReturn) (Z.to_nat (Qfloor q))
  | _ => []
  end.

(** [chartData[chartData.length - 1]]; reading a field of the missing last
    point of an empty chart throws, which is [None] here. *)
Definition lastPoint (chartData : list DCASimulator.Point)
  : option DCASimulator.Point :=
  match chartData with
  | [] => None
  | _ => nth_error chartData (List.length chartData - 1)
  end.

(** [finalDCA = chartData[chartData.length - 1].dca] *)
Definition finalDCA (chartData : list DCASimulator.Point) : option Z :=
  option_map DCASimulator.dca (lastPoint chartData).

(** [finalLumpSum = chartData[chartData.length - 1].lumpSum] *)
Definition finalLumpSum (chartData : list DCASimulator.Point) : option Z :=
  option_map DCASimulator.lumpSum (lastPoint chartData).

(** [totalContributions = customMonthly * months] *)
Definition totalContributions (customMonthly : Q) (timeframe : string)
  : number :=
  (Num customMonthly * JS.to_number (DCASimulator.months timeframe))%js.

End DCAPanel.

(** ** components/PortfolioHeatmap.tsx *)

(** The [name] of an investment, under a name the modules below do not
    reuse for a field of their own. *)
Definition investment_name (inv : Investment) : string := name inv.

Module Heatmap.

(** What a read of a table of strings gives: a string, the member of
    [Object.prototype] of that name, or [undefined]. *)
Inductive property : Type :=
| Str (s : string)
| Member (key : string)
| Missing.

(** [a === b]: two strings with the same characters, or one and the same
    object. *)
Definition property_eqb (a b : property) : bool :=
  match a, b with
  | Str s, Str t => String.eqb s t
  | Member j, Member k => String.eqb j k
  | Missing, Missing => true
  | _, _ => false
  end.

Fixpoint own (props : list (string * string)) (key : string)
  : option string :=
  match props with
  | [] => None
  | (k, v) :: rest => if String.eqb k key then Some v else own rest key
  end.

(** [table[key]] on an object literal with string properties. *)
Definition get (props : list (string * string)) (key : string) : property :=
  match own props key with
  | Some s => Str s
  | None =>
      if existsb (String.eqb key) JS.Object_prototype then Member key
      else Missing
  end.

(** [a || b]: the empty string and [undefined] are falsy. *)
Definition or (a b : property) : property :=
  match a with
  | Str "" | Missing => b
  | _ => a
  end.

Definition sectorMappings : list (string * string) :=
  [ ("VOO", "Diversified");
    ("VTI", "Diversified");
    ("AAPL", "Technology");
    ("MSFT", "Technology");
    ("BND", "Bonds");
    ("QQQ", "Technology") ].

Definition COLORS : list string :=
  [ "hsl(var(--primary))";
    "hsl(var(--success))";
    "hsl(var(--warning))";
    "hsl(var(--error))";
    "hsl(var(--accent))";
    "hsl(var(--muted-foreground))" ].

Definition RISK_COLORS : list (string * string) :=
  [ ("low", "hsl(var(--success))");
    ("medium", "hsl(var(--warning))");
    ("high", "hsl(var(--error))") ].

(** [COLORS[index % COLORS.length]] *)
Definition color_at (index : nat) : property :=
  match nth_error COLORS (index mod List.length COLORS) with
  | Some c => Str c
  | None => Missing
  end.

(** [Math.round((monthlyAmount * investment.allocation) / 100)] *)
Definition amount_of (monthlyAmount : Q) (inv : Investment) : Z :=
  JS.round_Q (monthlyAmount * allocation inv / 100).

(** An entry of [allocationData], [sectorData] or [riskData]; only the
    first kind has a [fullName]. *)
Record Slice : Type := mkSlice {
  name : property;
  fullName : option string;
  value : Q;
  amount : Z;
  color : property
}.

(** [investments.map((investment, index) => ...)], from [index] on. *)
Fixpoint allocationData_from (index : nat) (monthlyAmount : Q)
  (investments : list Investment) : list Slice :=
  match investments with
  | [] => []
  | inv :: rest =>
      {| name := Str (symbol inv);
         fullName := Some (investment_name inv);
         value := allocation inv;
         amount := amount_of monthlyAmount inv;
         color := color_at index |}
      :: allocationData_from (S index) monthlyAmount rest
  end.

Definition allocationData (monthlyAmount : Q) (investments : list Investment)
  : list Slice :=
  allocationData_from 0 monthlyAmount investments.

Section Grouping.

(** What the two [reduce] calls differ in: the name an investment is
    filed under, and the colour of a new entry, from the number of
    entries so far and the investment. *)
Variable key : Investment -> property.
Variable colour : nat -> Investment -> property.
Variable monthlyAmount : Q.

(** [acc.find(item => item.name === k)] finds an entry. *)
Definition found (k : property) (acc : list Slice) : bool :=
  existsb (fun item => property_eqb (name item) k) acc.

(** [existing.value += investment.allocation; existing.amount += ...] on
    the first entry named [k]. *)
Fixpoint bump (k : property) (inv : Investment) (acc : list Slice)
  : list Slice :=
  match acc with
  | [] => []
  | item :: rest =>
      if property_eqb (name item) k
      then {| name := name item;
              fullName := fullName item;
              value := value item + allocation inv;
              amount := amount item + amount_of monthlyAmount inv;
              color := color item |} :: rest
      else item :: bump k inv rest
  end.

(** The callback of [reduce]. *)
Definition reducer (acc : list Slice) (inv : Investment) : list Slice :=
  let k := key inv in
  if found k acc then bump k inv acc
  else (acc ++ [ {| name := k;
                    fullName := None;
                    value := allocation inv;
                    amount := amount_of monthlyAmount inv;
                    color := colour (List.length acc) inv |} ])%list.

Definition grouped (investments : list Investment) : list Slice :=
  fold_left reducer investments [].

End Grouping.

(** [sectorMappings[investment.symbol] || 'Other'] *)
Definition sector (inv : Investment) : property :=
  or (get sectorMappings (symbol inv)) (Str "Other").

Definition sectorData (monthlyAmount : Q) (investments : list Investment)
  : list Slice :=
  grouped sector (fun n _ => color_at n) monthlyAmount investments.

Definition riskData (monthlyAmount : Q) (investments : list Investment)
  : list Slice :=
  grouped (fun inv => Str (riskLevel inv))
    (fun _ inv => get RISK_COLORS (riskLevel inv))
    monthlyAmount investments.

(** [Math.max(...allocationData.map(d => d.value))] *)
Definition largestPosition (allocationData : list Slice) : number :=
  Math.max_of (map (fun d => Num (value d)) allocationData).

End Heatmap.

(** ** components/HistoricalBacktest.tsx *)

Module Backtest.

Record Point : Type := mkPoint {
  date : string;
  value : Z;
  contributions : Q;
  gains : Z
}.

(** The decimal digits of an integer, as a template literal prints it. *)
Definition string_of_Z (z : Z) : string :=
  DecimalString.NilZero.string_of_int (Z.to_int z).

(** [String(n).padStart(2, '0')] *)
Definition padStart2 (s : string) : string :=
  match String.length s with
  | O => "00"
  | S O => "0" ++ s
  | _ => s
  end.

Section Simulation.

(** [random i] is what the call number [i] of [Math.random()] returns,
    counted from 0; the loop draws once in every month after the
    first. *)
Variable random : nat -> Q.

Variables (investments : list Investment) (startYear endYear : Z)
  (monthlyAmount : Q).

Definition months : Z := (endYear - startYear) * 12.

(** [investments.reduce((sum, inv) => sum + (inv.expectedReturn *
    inv.allocation / 100), 0)] *)
Definition avgReturn : Q :=
  fold_left
    (fun sum inv => sum + expectedReturn inv * allocation inv / 100)
    investments 0.

Definition volatility : Q :=
  if existsb (fun inv => String.eqb (riskLevel inv) "high") investments
  then 0.15
  else if existsb (fun inv => String.eqb (riskLevel inv) "medium")
            investments
  then 0.10
  else 0.06.

(** The growth rate of the month whose draw is [u]. *)
Definition monthlyReturn (u : Q) : Q :=
  avgReturn / 100 / 12 + (u - 0.5) * volatility / 12.

(** One pass of the loop body at [month], on [portfolioValue] and
    [totalContributions]. *)
Definition step (month : nat) (s : Q * Q) : Q * Q :=
  let '(portfolioValue, totalContributions) := s in
  if (0 <? month)%nat
  then ((portfolioValue + monthlyAmount)
          * (1 + monthlyReturn (random (month - 1))),
        totalContributions + monthlyAmount)
  else (portfolioValue, totalContributions).

Definition point (month : nat) (s : Q * Q) : Point :=
  let year := (startYear + Z.of_nat month / 12)%Z in
  let monthInYear := (Z.of_nat month mod 12)%Z in
  {| date := string_of_Z year ++ "-"
             ++ padStart2 (string_of_Z (monthInYear + 1));
     value := JS.round_Q (fst s);
     contributions := snd s;
     gains := JS.round_Q (fst s - snd s) |}.

Fixpoint loop (left month : nat) (s : Q * Q) : list Point :=
  match left with
  | O => []
  | S left' =>
      let s' := step month s in
      point month s' :: loop left' (S month) s'
  end.

(** The running variables after the passes at months 0 to [k]. *)
Fixpoint after (k : nat) : Q * Q :=
  match k with
  | O => step 0 (0, 0)
  | S k' => step (S k') (after k')
  end.

(** The loop runs for [month = 0, ..., months], not at all when [months]
    is negative. *)
Definition generateHistoricalData : list Point :=
  let passes := if (0 <=? months)%Z then S (Z.to_nat months) else O in
  loop passes 0 (0, 0).

(** [finalValue = historicalData[historicalData.length - 1]], missing when
    there is no point. *)
Definition finalValue : option Point :=
  match generateHistoricalData with
  | [] => None
  | data => nth_error data (List.length data - 1)
  end.

(** [totalReturn = finalValue.value - finalValue.contributions] *)
Definition totalReturn (finalValue : Point) : Q :=
  inject_Z (value finalValue) - contributions finalValue.

(** [returnPercentage = (totalReturn / finalValue.contributions) * 100] *)
Definition returnPercentage (finalValue : Point) : number :=
  (Num (totalReturn finalValue) / Num (contributions finalValue) * 100)%js.

(** The badge of the analysis: [returnPercentage >= 0 ? "Positive" :
    "Negative"]. *)
Definition performance (finalValue : Point) : string :=
  if Math.ge (returnPercentage finalValue) 0 then "Positive" else "Negative".

End Simulation.

End Backtest.

(** ** More vocabulary *)


Definition amountSum (slices : list Heatmap.Slice) : Z :=
  fold_right (fun d acc => (Heatmap.amount d + acc)%Z) 0%Z slices.

Definition valueSum (slices : list Heatmap.Slice) : Q :=
  fold_right (fun d acc => Heatmap.value d + acc) 0 slices.

(** Two numbers are the same value. *)
Definition number_eq (x y : number) : Prop :=
  match x, y with
  | Num a, Num b => a == b
  | NaN, NaN | PosInf, PosInf | NegInf, NegInf => True
  | _, _ => False
  end.

(** The three components read [n] months from the label [th]. *)
Definition months_agree (th : string) (n : nat) : Prop :=
  number_eq (Engine.totalMonths th) (month_count n)
  /\ GoalPanel.months th = VNumber (month_count n)
  /\ DCASimulator.months th = VNumber (month_count n).

(** ** Binary64 numbers

    The Numbers of ECMAScript with the rounding, the overflow and the
    signed zero of IEEE 754 binary64.  A finite Number other than [-0]
    is the rational it denotes; every operation rounds the exact result
    to the nearest double, ties to even, overflows to an infinity at
    [2^1024] and underflows through the subnormal range to a zero of the
    sign of the exact result. *)

Module B64.

Inductive t : Type :=
| Fin (q : Q)
| NegZero
| PosInf
| NegInf
| NaN.

(** [2^e] *)
Definition pow2 (e : Z) : Q := 2 ^ e.

(** The binary exponent of [q > 0]: [2^(ilog2 q) <= q < 2^(ilog2 q + 1)]. *)
Definition ilog2 (q : Q) : Z :=
  let e := (Z.log2 (Qnum q) - Z.log2 (Zpos (Qden q)))%Z in
  if Qle_bool (pow2 e) q then e else (e - 1)%Z.

(** The nearest integer, a tie to the even one. *)
Definition rne (x : Q) : Z :=
  let f := Qfloor x in
  match Qcompare (x - inject_Z f) (1 # 2) with
  | Lt => f
  | Gt => (f + 1)%Z
  | Eq => if Z.even f then f else (f + 1)%Z
  end.

(** The exponent of the last place of the doubles around [q > 0]: 53
    significant bits, and [2^-1074] in the subnormal range. *)
Definition qexp (q : Q) : Z := Z.max (ilog2 q - 52) (-1074).

(** The multiple of [2^(qexp q)] nearest to [q >= 0], the exponent
    unbounded above. *)
Definition rnd_pos (q : Q) : Q :=
  inject_Z (rne (q / pow2 (qexp q))) * pow2 (qexp q).

(** The Number an exact result [q] rounds to. *)
Definition round (q : Q) : t :=
  match Qcompare q 0 with
  | Eq => Fin 0
  | Gt => let v := rnd_pos q in
          if Qle_bool (pow2 1024) v then PosInf else Fin (Qred v)
  | Lt => let v := rnd_pos (- q) in
          if Qle_bool (pow2 1024) v then NegInf
          else if Qeq_bool v 0 then NegZero else Fin (Qred (- v))
  end.

(** The sign bit. *)
Definition sign (x : t) : bool :=
  match x with
  | Fin q => match Qcompare q 0 with Lt => true | _ => false end
  | NegZero | NegInf => true
  | PosInf | NaN => false
  end.

Definition is_zero (x : t) : bool :=
  match x with
  | Fin q => Qeq_bool q 0
  | NegZero => true
  | _ => false
  end.

Definition is_inf (x : t) : bool :=
  match x with PosInf | NegInf => true | _ => false end.

Definition is_nan (x : t) : bool :=
  match x with NaN => true | _ => false end.

Definition zero (s : bool) : t := if s then NegZero else Fin 0.
Definition inf (s : bool) : t := if s then NegInf else PosInf.

(** Unary minus. *)
Definition neg (x : t) : t :=
  match x with
  | Fin q => if Qeq_bool q 0 then NegZero else Fin (- q)
  | NegZero => Fin 0
  | PosInf => NegInf
  | NegInf => PosInf
  | NaN => NaN
  end.

(** [x + y] *)
Definition add (x y : t) : t :=
  match x, y with
  | NaN, _ | _, NaN => NaN
  | PosInf, NegInf | NegInf, PosInf => NaN
  | PosInf, _ | _, PosInf => PosInf
  | NegInf, _ | _, NegInf => NegInf
  | NegZero, NegZero => NegZero
  | NegZero, Fin b => round b
  | Fin a, NegZero => round a
  | Fin a, Fin b => round (a + b)
  end.

(** [x - y] *)
Definition sub (x y : t) : t := add x (neg y).

(** [x * y] *)
Definition mul (x y : t) : t :=
  if is_nan x || is_nan y then NaN
  else
    let s := xorb (sign x) (sign y) in
    if is_inf x || is_inf y
    then (if is_zero x || is_zero y then NaN else inf s)
    else if is_zero x || is_zero y then zero s
    else match x, y with
         | Fin a, Fin b => round (a * b)
         | _, _ => NaN
         end.

(** [x / y] *)
Definition div (x y : t) : t :=
  if is_nan x || is_nan y then NaN
  else
    let s := xorb (sign x) (sign y) in
    if is_inf x then (if is_inf y then NaN else inf s)
    else if is_inf y then zero s
    else if is_zero y then (if is_zero x then NaN else inf s)
    else if is_zero x then zero s
    else match x, y with
         | Fin a, Fin b => round (a / b)
         | _, _ => NaN
         end.

(** The comparison of two numbers, [None] when one is [NaN]. *)
Definition compare (x y : t) : option comparison :=
  match x, y with
  | NaN, _ | _, NaN => None
  | PosInf, PosInf | NegInf, NegInf => Some Eq
  | PosInf, _ | _, NegInf => Some Gt
  | NegInf, _ | _, PosInf => Some Lt
  | NegZero, NegZero => Some Eq
  | NegZero, Fin b => Some (Qcompare 0 b)
  | Fin a, NegZero => Some (Qcompare a 0)
  | Fin a, Fin b => Some (Qcompare a b)
  end.

(** [x < y], [x <= y], [x > y], [x >= y] and [x === y] on Numbers. *)
Definition ltb (x y : t) : bool :=
  match compare x y with Some Lt => true | _ => false end.
Definition leb (x y : t) : bool :=
  match compare x y with Some Lt | Some Eq => true | _ => false end.
Definition gtb (x y : t) : bool := ltb y x.
Definition geb (x y : t) : bool := leb y x.
Definition eqb (x y : t) : bool :=
  match compare x y with Some Eq => true | _ => false end.

(** [Math.round]: the nearest integer, a tie towards +Infinity. *)
Definition Math_round (x : t) : t :=
  match x with
  | Fin q =>
      let z := Qfloor (q + (1 # 2)) in
      if (z =? 0)%Z && sign x then NegZero else Fin (inject_Z z)
  | _ => x
  end.

(** The Number a decimal literal or an integer denotes. *)
Definition of_Q (q : Q) : t := round q.
Definition of_nat (n : nat) : t := round (inject_Z (Z.of_nat n)).

End B64.

(** ** Vocabulary of the binary64 properties *)

(** The unit roundoff of binary64. *)
Definition u : Q := B64.pow2 (-53).

(** A rational that is zero or at least the smallest normal number. *)
Definition normal (q : Q) : Prop := q == 0 \/ B64.pow2 (-1022) <= q.

(** The value of a Number on the rational line, the infinities at
    [2^1024] and [-2^1024]. *)
Definition ext (x : B64.t) : Q :=
  match x with
  | B64.Fin q => q
  | B64.NegZero => 0
  | B64.PosInf => B64.pow2 1024
  | B64.NegInf => - B64.pow2 1024
  | B64.NaN => 0
  end.

(** A Number that is not [NaN] and, when finite, below [2^1024] in
    magnitude: what [B64.round] returns. *)
Definition wf (x : B64.t) : Prop :=
  match x with
  | B64.Fin q => - B64.pow2 1024 < q /\ q < B64.pow2 1024
  | B64.NaN => False
  | _ => True
  end.


(** A Number that is [+Infinity] or finite and not negative. *)
Definition nonneg_or_inf (x : B64.t) : Prop :=
  x = B64.PosInf \/ exists v, x = B64.Fin v /\ 0 <= v.

(** Rounding on the rational line: to the nearest double in magnitude,
    stopped at [2^1024]. *)
Definition crnd (q : Q) : Q :=
  match Qcompare q 0 with
  | Lt => - Qmin (B64.rnd_pos (- q)) (B64.pow2 1024)
  | _ => Qmin (B64.rnd_pos q) (B64.pow2 1024)
  end.

(** Rounding a rational that is not negative, the exponent unbounded
    above. *)
Definition fl : Q -> Q := B64.rnd_pos.

(** [(1 + u)^k] *)
Fixpoint pw (k : nat) : Q :=
  match k with
  | O => 1
  | S k' => (1 + u) * pw k'
  end.

(** The least monthly growth the ordering of the two DCA lines is proved
    for, and a bound of [(1 + u)^181]. *)
Definition rho : Q := B64.pow2 (-40).
Definition Lam : Q := 1 + B64.pow2 (-45).

Section Running.

(** The two running variables of [generateDCAData] on the rational line
    while nothing overflows: [c] is [customMonthly], [g] the Number
    [1 + monthlyReturn] and [n] is [months]. *)
Variables (c g : Q) (n : nat).

Fixpoint DQ (k : nat) : Q :=
  match k with
  | O => 0
  | S k' => fl (fl (DQ k' + c) * g)
  end.

Fixpoint LQ (k : nat) : Q :=
  match k with
  | O => fl (c * inject_Z (Z.of_nat n))
  | S k' => fl (LQ k' * g)
  end.

(** The invariant of the loop: the DCA value, with the roundings still
    to come and the contributions still to be paid, stays below the lump
    sum. *)
Definition Inv (k : nat) : Prop :=
  pw (3 * (n - k)) * DQ k
  + inject_Z (Z.of_nat (n - k)) * c * (pw (3 * n) * (1 + u)) <= LQ k.

End Running.

(** The four roundings of the round trip from a goal [G] to the required
    monthly amount and back, on the rational line: [rq] is the monthly
    return and [Kq] is [Math.pow(1 + monthlyReturn, months) - 1]. *)
Definition tripQ (rq Kq G : Q) : Q :=
  B64.rnd_pos (B64.rnd_pos (B64.rnd_pos (B64.rnd_pos (G * rq) / Kq) * Kq)
               / rq).

(** ** The program over binary64 *)

(** The Number a decimal literal or a table entry of the source denotes. *)
Definition number64 (x : JS.number) : B64.t :=
  match x with
  | JS.Num q => B64.of_Q q
  | JS.NaN => B64.NaN
  | JS.PosInf => B64.PosInf
  | JS.NegInf => B64.NegInf
  end.

(** A month count or loop counter as a Number (exact below 2^53). *)
Definition index (n : nat) : B64.t := B64.Fin (inject_Z (Z.of_nat n)).

Fixpoint pown (x : Q) (n : nat) : Q :=
  match n with
  | O => 1
  | S n' => x * pown x n'
  end.

(** What is assumed of the host's [Math.pow], which ECMAScript leaves
    implementation-approximated: for a base from 1 to 2 and a whole
    exponent from 1 to 60 the result is finite and within the relative
    distance [2^-50] of the power. *)
Definition accurate (Math_pow : B64.t -> B64.t -> B64.t) : Prop :=
  forall (x : Q) (n : nat),
    1 <= x -> x <= 2 -> (1 <= n <= 60)%nat ->
    exists p,
      Math_pow (B64.Fin x) (index n) = B64.Fin p
      /\ Qabs (p - pown x n) <= B64.pow2 (-50) * pown x n.

(** A correctly rounded power for whole exponents from 0 on, [NaN]
    elsewhere: one [Math.pow] that is [accurate]. *)
Definition pow_cr (x y : B64.t) : B64.t :=
  match x, y with
  | B64.Fin a, B64.Fin b =>
      if Qeq_bool b (inject_Z (Qfloor b)) && (0 <=? Qfloor b)%Z
      then B64.round (pown a (Z.to_nat (Qfloor b)))
      else B64.NaN
  | _, _ => B64.NaN
  end.

Module Engine64.
Import B64.

Section Host.

(** The [Math.pow] of the host. *)
Variable Math_pow : t -> t -> t.

(** [totalMonths = timeMultiplier * 12] *)
Definition totalMonths (timeHorizon : string) : t :=
  mul (number64 (JS.to_number (Engine.timeMultiplier timeHorizon))) (Fin 12).

(** The [totalExpectedReturn] the [switch] assigns. *)
Definition totalExpectedReturn (riskTolerance : string) : t :=
  of_Q (Engine.selectedReturn riskTolerance).

(** [monthlyReturn = totalExpectedReturn / 100 / 12] *)
Definition monthlyReturn (totalExpectedReturn : t) : t :=
  let annualReturn := div totalExpectedReturn (Fin 100) in
  div annualReturn (Fin 12).

(** [monthlyContribution * (Math.pow(1 + monthlyReturn, totalMonths) - 1)
     / monthlyReturn] *)
Definition futureValue
  (monthlyContribution totalExpectedReturn totalMonths : t) : t :=
  let monthlyReturn := monthlyReturn totalExpectedReturn in
  div (mul monthlyContribution
         (sub (Math_pow (add (Fin 1) monthlyReturn) totalMonths) (Fin 1)))
    monthlyReturn.

(** The [projectedValue] of [generatePortfolioRecommendation(userData)],
    from the three fields of [userData] the function reads. *)
Definition projectedValue
  (monthlyBudget : t) (riskTolerance timeHorizon : string) : t :=
  Math_round
    (futureValue monthlyBudget (totalExpectedReturn riskTolerance)
       (totalMonths timeHorizon)).

End Host.

End Engine64.

Module GoalTracker64.
Import B64.

Section Host.

Variable Math_pow : t -> t -> t.

(** [months = timeMultipliers[timeframe] || 12] *)
Definition months (timeframe : string) : t :=
  number64 (JS.to_number (GoalPanel.months timeframe)).

(** [calculateRequiredMonthly(targetAmount, months, annualReturn)] *)
Definition calculateRequiredMonthly
  (targetAmount months annualReturn : t) : t :=
  let monthlyReturn := div (div annualReturn (Fin 100)) (Fin 12) in
  if eqb monthlyReturn (Fin 0) then div targetAmount months
  else div (mul targetAmount monthlyReturn)
         (sub (Math_pow (add (Fin 1) monthlyReturn) months) (Fin 1)).

(** [requiredMonthly], from the props of the component. *)
Definition requiredMonthly
  (goalAmount : t) (timeframe : string) (expectedReturn : t) : t :=
  calculateRequiredMonthly goalAmount (months timeframe) expectedReturn.

End Host.

End GoalTracker64.

Module DCASimulator64.
Import B64.

Record Point : Type := mkPoint {
  month : nat;
  dca : t;
  lumpSum : t;
  contributions : t
}.

(** [monthlyReturn = expectedReturn / 100 / 12] *)
Definition monthlyReturn (expectedReturn : t) : t :=
  div (div expectedReturn (Fin 100)) (Fin 12).

Section Simulation.

Variables (customMonthly monthlyReturn : t) (months : nat).

Definition step (month : nat) (s : t * t) : t * t :=
  let '(dcaValue, lumpSumValue) := s in
  if (0 <? month)%nat
  then (mul (add dcaValue customMonthly) (add (Fin 1) monthlyReturn),
        mul lumpSumValue (add (Fin 1) monthlyReturn))
  else (dcaValue, lumpSumValue).

Definition point (month : nat) (s : t * t) : Point :=
  {| month := month;
     dca := Math_round (fst s);
     lumpSum := Math_round (snd s);
     contributions := mul (index month) customMonthly |}.

Fixpoint loop (left month : nat) (s : t * t) : list Point :=
  match left with
  | O => []
  | S left' =>
      let s' := step month s in
      point month s' :: loop left' (S month) s'
  end.

(** The running variables after the passes at months [m], ..., [m + k],
    entered with [s]. *)
Fixpoint after (m : nat) (s : t * t) (k : nat) : t * t :=
  match k with
  | O => step m s
  | S k' => step (m + S k') (after m s k')
  end.

(** [dcaValue = 0] and [lumpSumValue = customMonthly * months] *)
Definition start : t * t := (Fin 0, mul customMonthly (index months)).

Definition generateDCAData : list Point := loop (S months) 0 start.

End Simulation.

End DCASimulator64.

(** The running variables of [generateDCAData] after month [k] are the
    rationals [DQ] and [LQ], or the lump sum has overflowed. *)
Definition tracked (c g : Q) (r : B64.t) (n k : nat) : Prop :=
  let st :=
    DCASimulator64.after (B64.Fin c) r 0
      (DCASimulator64.start (B64.Fin c) n) k in
  (snd st = B64.PosInf /\ nonneg_or_inf (fst st))
  \/ (exists Dv Lv,
        fst st = B64.Fin Dv /\ snd st = B64.Fin Lv
        /\ Dv == DQ c g k /\ Lv == LQ c g n k /\ Lv < B64.pow2 1024).

(** The Number [d] units in the last place from a finite [x]. *)
Definition nudge (d : Z) (x : B64.t) : B64.t :=
  match x with
  | B64.Fin v => B64.Fin (Qred (v + inject_Z d * B64.pow2 (B64.qexp v)))
  | _ => x
  end.

(** A [Math.pow] that is [d] units in the last place off the correctly
    rounded one. *)
Definition pow_near (d : Z) (x y : B64.t) : B64.t := nudge d (pow_cr x y).

Import DCASimulator Engine.
Local Open Scope Q_scope.

(** ** Tactics *)

(** Settles a goal that made one of the listed horizon labels the key:
    the month count [n] and the rational the table yields for it. *)
Ltac listed_horizon n :=
  right; split; [reflexivity|];
  exists n; eexists; cbn; split; [tauto | split; reflexivity].

(** Case analysis along a four-way disjunction of equations, such as the
    one that says which branch of the [switch] an input takes. *)
Ltac by_branch cases :=
  let H := fresh "H" in
  destruct cases as [H|[H|[H|H]]]; rewrite H.

(** Settles a goal that made one of the listed horizon labels the key in
    the tables of all three components. *)
Ltac listed_month n :=
  right; split; [reflexivity|];
  exists n; eexists; cbn [In]; split; [tauto|];
  repeat split; reflexivity.

(** Case analysis on how two rationals compare, from a proof of the
    three-way disjunction. *)
Ltac by_comparison cases :=
  let E := fresh "E" in
  let H := fresh "H" in
  destruct cases as [[E H]|[[E H]|[E H]]]; rewrite E.

(** * The model on small inputs *)

Example round_ties_go_up :
  JS.round (Num 2.5) = Num 3 /\ JS.round (Num (-2.5)) = Num (-2)
  /\ JS.round (Num 2.4) = Num 2 /\ JS.round NaN = NaN.
Proof. repeat split. Qed.

Example division_by_zero :
  JS.div (Num 0) (Num 0) = NaN /\ JS.div (Num 5) (Num 0) = PosInf
  /\ JS.div (Num (-5)) (Num 0) = NegInf.
Proof. repeat split. Qed.

Example horizon_lookup :
  JS.get timeMultipliers "6-months" = VNumber (Num 0.5)
  /\ JS.get timeMultipliers "10-years" = VUndefined
  /\ JS.get timeMultipliers "valueOf" = VObject
  /\ timeMultiplier "10-years" = VNumber (Num 1).
Proof. repeat split. Qed.

Example three_months_projection :
  projectFutureValue 25 7.8 (totalMonths "3-months") = Num 75.
Proof. vm_compute. reflexivity. Qed.

Example required_monthly_at_zero_rate :
  GoalTracker.calculateRequiredMonthly 1200 (month_count 12) 0 = Num (1200 / 12)
  /\ GoalTracker.calculateRequiredMonthly 1200 (month_count 0) 0 = PosInf.
Proof. repeat split. Qed.

Example dca_months :
  DCASimulator.months "3-months" = VNumber (Num 3)
  /\ DCASimulator.months "1-year" = VNumber (Num 12)
  /\ DCASimulator.months "10-years" = VNumber (Num 12).
Proof. repeat split. Qed.

Example dca_three_months :
  map (fun p => (month p, dca p, lumpSum p)) (generateDCAData 100 0.01 3)
  = [(0%nat, 0%Z, 300%Z); (1%nat, 101%Z, 303%Z);
     (2%nat, 203%Z, 306%Z); (3%nat, 306%Z, 309%Z)].
Proof. vm_compute. reflexivity. Qed.

(** * Numbers *)

Lemma Qeq_bool_false (x y : Q) : ~ x == y -> Qeq_bool x y = false.
Proof.
  intros H. destruct (Qeq_bool x y) eqn:E; [|reflexivity].
  apply Qeq_bool_eq in E. contradiction.
Qed.

Lemma div_finite (a b : Q) : ~ b == 0 -> JS.div (Num a) (Num b) = Num (a / b).
Proof. intros H. unfold JS.div. now rewrite (Qeq_bool_false _ _ H). Qed.

Lemma is_integer_inject_Z (e : Q) (z : Z) :
  e == inject_Z z -> JS.is_integer e = true.
Proof.
  intros H. unfold JS.is_integer. apply Qeq_eq_bool.
  rewrite H at 1. rewrite Qfloor_Z. symmetry. exact H.
Qed.

(** [Math.pow] at a natural exponent is the rational power. *)
Lemma pow_integer (b e : Q) (n : nat) :
  e == inject_Z (Z.of_nat n) ->
  exists q, JS.pow (Num b) (Num e) = Num q /\ q == b ^ Z.of_nat n.
Proof.
  intros He. unfold JS.pow.
  destruct (Qeq_bool e 0) eqn:E0.
  - apply Qeq_bool_eq in E0. rewrite E0 in He.
    assert (Z.of_nat n = 0%Z) as ->.
    { apply inject_Z_injective. rewrite <- He. reflexivity. }
    exists 1. split; reflexivity.
  - apply Qeq_bool_neq in E0.
    assert (Hn : (0 < Z.of_nat n)%Z).
    { destruct n; [exfalso; apply E0; rewrite He; reflexivity | lia]. }
    rewrite (is_integer_inject_Z e _ He). simpl.
    destruct (Qeq_bool b 0) eqn:Eb.
    + apply Qeq_bool_eq in Eb.
      destruct (Qlt_le_dec 0 e) as [_|Hle].
      * exists 0. split; [reflexivity|].
        rewrite Eb, Qpower_0; [reflexivity|lia].
      * exfalso.
        assert (inject_Z 0 < inject_Z (Z.of_nat n)) as Hlt
          by (rewrite <- Zlt_Qlt; lia).
        rewrite <- He in Hlt. exact (Qlt_not_le _ _ Hlt Hle).
    + exists (b ^ Qfloor e). split; [reflexivity|].
      rewrite He, Qfloor_Z. reflexivity.
Qed.

(** * Rounding *)

Lemma round_Q_le (x y : Q) : x <= y -> (round_Q x <= round_Q y)%Z.
Proof. intros H. unfold round_Q. apply Qfloor_resp_le. lra. Qed.


(** * Compound growth at a positive monthly rate *)

Section Growth.

Variable r : Q.
Hypothesis Hr : 0 < r.

End Growth.

(** * The projection *)

Lemma monthly_rate_zero (ret : Q) : ret / 100 / 12 == 0 <-> ret == 0.
Proof.
  split; intros H.
  - assert (E : ret == ret / 100 / 12 * 1200) by field.
    rewrite E, H. reflexivity.
  - rewrite H. reflexivity.
Qed.

Lemma monthlyReturn_finite (ret : Q) :
  monthlyReturn (Num ret) = Num (ret / 100 / 12).
Proof. reflexivity. Qed.

(** With a finite contribution, a nonzero rate and a natural number of
    months the unrounded projection is the closed form of the annuity. *)
Lemma futureValue_finite (c ret e : Q) (n : nat) :
  ~ ret == 0 -> e == inject_Z (Z.of_nat n) ->
  exists q, futureValue (Num c) (Num ret) (Num e) = Num q
            /\ q == annuity c (ret / 100 / 12) n.
Proof.
  intros Hret He. unfold futureValue.
  rewrite monthlyReturn_finite.
  destruct (pow_integer (1 + ret / 100 / 12) e n He) as [p [Hp Hq]].
  cbn [JS.add]. rewrite Hp. cbn [JS.sub JS.neg JS.add JS.mul].
  rewrite div_finite.
  - eexists. split; [reflexivity|]. unfold annuity. rewrite Hq.
    field. exact Hret.
  - now rewrite monthly_rate_zero.
Qed.

Lemma projectFutureValue_finite (c ret e : Q) (n : nat) :
  ~ ret == 0 -> e == inject_Z (Z.of_nat n) ->
  projectFutureValue (Num c) (Num ret) (Num e)
  = Num (inject_Z (round_Q (annuity c (ret / 100 / 12) n))).
Proof.
  intros Hret He. unfold projectFutureValue.
  destruct (futureValue_finite c ret e n Hret He) as [q [-> Hq]].
  cbn [JS.round]. unfold round_Q. now rewrite Hq.
Qed.

(** * The recommendation *)

Lemma selection_cases (rt : string) :
  selection rt = selection "low" \/ selection rt = selection "medium"
  \/ selection rt = selection "high" \/ selection rt = selection "".
Proof.
  unfold selection.
  destruct (String.eqb rt "low"); [now left|].
  destruct (String.eqb rt "medium"); [now right; left|].
  destruct (String.eqb rt "high"); [now right; right; left|].
  now right; right; right.
Qed.

Lemma selectedReturn_cases (rt : string) :
  In (selectedReturn rt) [7.8; 9.8; 12.1; 10.5].
Proof.
  unfold selectedReturn.
  by_branch (selection_cases rt); cbn; tauto.
Qed.

Lemma selectedReturn_nonzero (rt : string) : ~ selectedReturn rt == 0.
Proof.
  pose proof (selectedReturn_cases rt) as H. cbn in H.
  destruct H as [<-|[<-|[<-|[<-|[]]]]]; discriminate.
Qed.

(** The month count is that of a listed label, or 12, or - for a label
    that names a member of [Object.prototype] - not a number. *)
Lemma totalMonths_cases (th : string) :
  (inherited timeMultipliers th = true /\ totalMonths th = NaN)
  \/ (inherited timeMultipliers th = false
      /\ exists (n : nat) (e : Q),
           In n [3; 6; 12; 24; 60]%nat
           /\ totalMonths th = Num e /\ e == inject_Z (Z.of_nat n)).
Proof.
  unfold totalMonths, timeMultiplier, inherited, JS.get, timeMultipliers,
    JS.own.
  destruct (String.eqb "3-months" th); [listed_horizon 3%nat|].
  destruct (String.eqb "6-months" th); [listed_horizon 6%nat|].
  destruct (String.eqb "1-year" th); [listed_horizon 12%nat|].
  destruct (String.eqb "2-years" th); [listed_horizon 24%nat|].
  destruct (String.eqb "5-years" th); [listed_horizon 60%nat|].
  destruct (existsb (String.eqb th) Object_prototype).
  - left. split; reflexivity.
  - listed_horizon 12%nat.
Qed.

(** Every exponent the engine hands to [Math.pow] is an integer or [NaN]. *)
Lemma totalMonths_integral (th : string) :
  totalMonths th = NaN
  \/ exists e, totalMonths th = Num e /\ JS.is_integer e = true.
Proof.
  destruct (totalMonths_cases th) as [[_ H]|[_ (n & e & _ & H & He)]].
  - now left.
  - right. exists e. split; [exact H|]. now apply is_integer_inject_Z in He.
Qed.

(** An unrecognized risk tolerance takes the [default] branch. *)
Lemma unrecognized_riskTolerance (userData : BudgetRiskData) :
  riskTolerance userData <> "low" ->
  riskTolerance userData <> "medium" ->
  riskTolerance userData <> "high" ->
  let p := generatePortfolioRecommendation userData in
  template p = [("VOO", 100)]
  /\ totalExpectedReturn p = 10.5
  /\ riskScore p = 3%Z.
Proof.
  intros Hl Hm Hh. unfold template, generatePortfolioRecommendation, selection.
  apply String.eqb_neq in Hl, Hm, Hh. rewrite Hl, Hm, Hh.
  cbn. repeat split.
Qed.

(** A horizon label that is neither listed nor a member of
    [Object.prototype] is projected over 12 months. *)
Lemma unrecognized_timeHorizon (userData : BudgetRiskData) :
  recognized timeMultipliers (timeHorizon userData) = false ->
  inherited timeMultipliers (timeHorizon userData) = false ->
  totalMonths (timeHorizon userData) = month_count 12
  /\ let p := generatePortfolioRecommendation userData in
     projectedValue p
     = projectFutureValue (monthlyBudget userData)
         (Num (totalExpectedReturn p)) (month_count 12).
Proof.
  intros Hrec Hinh.
  assert (E : totalMonths (timeHorizon userData) = month_count 12).
  { unfold totalMonths, timeMultiplier, JS.get.
    unfold recognized in Hrec. unfold inherited in Hinh.
    destruct (own timeMultipliers (timeHorizon userData)); [discriminate|].
    rewrite Hinh. reflexivity. }
  split; [exact E|].
  unfold generatePortfolioRecommendation.
  destruct (selection (riskTolerance userData)) as [[inv ret] score].
  cbn [projectedValue totalExpectedReturn]. now rewrite E.
Qed.

(** The divisor of the projection is never zero, and the projected value
    of a finite budget is finite unless the horizon label names a member
    of [Object.prototype]. *)
Lemma projectedValue_finite (userData : BudgetRiskData) (c : Q) :
  monthlyBudget userData = Num c ->
  inherited timeMultipliers (timeHorizon userData) = false ->
  let p := generatePortfolioRecommendation userData in
  In (totalExpectedReturn p) [7.8; 9.8; 12.1; 10.5]
  /\ (exists r, monthlyReturn (Num (totalExpectedReturn p)) = Num r
                /\ ~ r == 0)
  /\ exists z, projectedValue p = Num (inject_Z z).
Proof.
  intros Hc Hinh p.
  pose proof (selectedReturn_cases (riskTolerance userData)) as Hin.
  pose proof (selectedReturn_nonzero (riskTolerance userData)) as Hnz.
  subst p. unfold generatePortfolioRecommendation.
  unfold selectedReturn in Hin, Hnz.
  destruct (selection (riskTolerance userData)) as [[inv ret] score].
  cbn [fst snd] in Hin, Hnz. cbn [projectedValue totalExpectedReturn].
  split; [exact Hin|]. split.
  - exists (ret / 100 / 12). split; [reflexivity|].
    now rewrite monthly_rate_zero.
  - destruct (totalMonths_cases (timeHorizon userData))
      as [[Hi _]|[_ (n & e & _ & -> & He)]]; [congruence|].
    rewrite Hc, (projectFutureValue_finite c ret e n Hnz He). now eexists.
Qed.

(** * The DCA simulation *)

Section Loop.

Variables c r : Q.

Lemma after_shift (m : nat) (s : Q * Q) (k : nat) :
  after c r (S m) (step c r m s) k = after c r m s (S k).
Proof.
  induction k as [|k IH].
  - cbn [after]. now rewrite Nat.add_1_r.
  - cbn [after] in *. rewrite IH. f_equal. lia.
Qed.

Lemma loop_length (left m : nat) (s : Q * Q) :
  List.length (loop c r left m s) = left.
Proof.
  revert m s. induction left as [|left IH]; intros m s; cbn [loop List.length].
  - reflexivity.
  - now rewrite IH.
Qed.


Lemma loop_nth (left m : nat) (s : Q * Q) (k : nat) :
  (k < left)%nat ->
  nth_error (loop c r left m s) k
  = Some (point c (m + k) (after c r m s k)).
Proof.
  revert m s k. induction left as [|left IH]; intros m s k Hk; [lia|].
  destruct k as [|k]; cbn [loop nth_error].
  - now rewrite Nat.add_0_r.
  - rewrite IH by lia. rewrite after_shift. do 2 f_equal. lia.
Qed.

Lemma inject_Z_succ (k : nat) :
  inject_Z (Z.of_nat (S k)) == inject_Z (Z.of_nat k) + 1.
Proof.
  rewrite Nat2Z.inj_succ. unfold Z.succ. rewrite inject_Z_plus. reflexivity.
Qed.

Lemma inject_Z_nat_nonneg (k : nat) : 0 <= inject_Z (Z.of_nat k).
Proof. change 0 with (inject_Z 0). rewrite <- Zle_Qle. lia. Qed.

End Loop.

(** * Binary64 arithmetic *)

(** * Powers of two *)

Lemma pow2_pos (e : Z) : 0 < B64.pow2 e.
Proof. unfold B64.pow2. apply Qpower_0_lt. reflexivity. Qed.

Lemma pow2_add (a b : Z) : B64.pow2 (a + b) == B64.pow2 a * B64.pow2 b.
Proof. unfold B64.pow2. apply Qpower_plus. discriminate. Qed.

Lemma pow2_succ (a : Z) : B64.pow2 (a + 1) == 2 * B64.pow2 a.
Proof. rewrite pow2_add. change (B64.pow2 1) with 2. ring. Qed.

Lemma pow2_inject (a : Z) : (0 <= a)%Z -> inject_Z (2 ^ a) == B64.pow2 a.
Proof. intros H. unfold B64.pow2. now rewrite Zpower_Qpower. Qed.

Lemma pow2_le (a b : Z) : (a <= b)%Z -> B64.pow2 a <= B64.pow2 b.
Proof.
  intros H. replace b with (a + (b - a))%Z by lia.
  rewrite pow2_add.
  assert (1 <= B64.pow2 (b - a)).
  { rewrite <- pow2_inject by lia.
    change 1 with (inject_Z 1). rewrite <- Zle_Qle.
    pose proof (Z.pow_pos_nonneg 2 (b - a)). lia. }
  pose proof (pow2_pos a). nra.
Qed.

Lemma pow2_lt (a b : Z) : (a < b)%Z -> B64.pow2 a < B64.pow2 b.
Proof.
  intros H. apply Qlt_le_trans with (B64.pow2 (a + 1)).
  - rewrite pow2_succ. pose proof (pow2_pos a). lra.
  - apply pow2_le. lia.
Qed.

Lemma pow2_sub (a b : Z) : B64.pow2 (a - b) == B64.pow2 a / B64.pow2 b.
Proof.
  assert (E : B64.pow2 a == B64.pow2 (a - b) * B64.pow2 b).
  { rewrite <- pow2_add. now replace (a - b + b)%Z with a by lia. }
  rewrite E. field. pose proof (pow2_pos b). lra.
Qed.

(** * The binade of a positive rational *)

Lemma ilog2_spec (q : Q) :
  0 < q ->
  B64.pow2 (B64.ilog2 q) <= q /\ q < B64.pow2 (B64.ilog2 q + 1).
Proof.
  intros Hq. destruct q as [n d].
  assert (Hn : (0 < n)%Z).
  { unfold Qlt in Hq. cbn in Hq. lia. }
  unfold B64.ilog2. cbn [Qnum Qden].
  set (a := Z.log2 n). set (b := Z.log2 (Z.pos d)).
  destruct (Z.log2_spec n Hn) as [A1 A2]. fold a in A1, A2.
  destruct (Z.log2_spec (Z.pos d) (Pos2Z.is_pos d)) as [B1 B2].
  fold b in B1, B2.
  assert (Ha : (0 <= a)%Z) by apply Z.log2_nonneg.
  assert (Hb : (0 <= b)%Z) by apply Z.log2_nonneg.
  assert (E : inject_Z n == (n # d) * inject_Z (Z.pos d)).
  { unfold Qeq. cbn. lia. }
  assert (Dp : 0 < inject_Z (Z.pos d)).
  { change 0 with (inject_Z 0). rewrite <- Zlt_Qlt. lia. }
  assert (QA1 : B64.pow2 a <= inject_Z n).
  { rewrite <- pow2_inject by lia. now rewrite <- Zle_Qle. }
  assert (QA2 : inject_Z n < B64.pow2 (a + 1)).
  { rewrite <- pow2_inject by lia. rewrite <- Zlt_Qlt.
    now rewrite <- Z.add_1_r in A2. }
  assert (QB1 : B64.pow2 b <= inject_Z (Z.pos d)).
  { rewrite <- pow2_inject by lia. now rewrite <- Zle_Qle. }
  assert (QB2 : inject_Z (Z.pos d) < B64.pow2 (b + 1)).
  { rewrite <- pow2_inject by lia. rewrite <- Zlt_Qlt.
    now rewrite <- Z.add_1_r in B2. }
  assert (U : (n # d) < B64.pow2 (a - b + 1)).
  { replace (a - b + 1)%Z with (a + 1 - b)%Z by lia.
    rewrite pow2_sub. pose proof (pow2_pos b).
    apply Qlt_shift_div_l; [assumption|].
    apply Qle_lt_trans with ((n # d) * inject_Z (Z.pos d)); [|now rewrite <- E].
    apply Qmult_le_l; [exact Hq|exact QB1]. }
  assert (L : B64.pow2 (a - b - 1) < (n # d)).
  { replace (a - b - 1)%Z with (a - (b + 1))%Z by lia.
    rewrite pow2_sub. pose proof (pow2_pos (b + 1)).
    apply Qlt_shift_div_r; [assumption|].
    apply Qle_lt_trans with (inject_Z n); [exact QA1|].
    rewrite E. apply Qmult_lt_l; [exact Hq|exact QB2]. }
  destruct (Qle_bool (B64.pow2 (a - b)) (n # d)) eqn:T.
  - apply Qle_bool_iff in T. split; assumption.
  - assert (T' : (n # d) < B64.pow2 (a - b)).
    { apply Qnot_le_lt. intros C. apply Qle_bool_iff in C. congruence. }
    split; [now apply Qlt_le_weak|].
    now replace (a - b - 1 + 1)%Z with (a - b)%Z by lia.
Qed.

Lemma ilog2_unique (q : Q) (k : Z) :
  B64.pow2 k <= q -> q < B64.pow2 (k + 1) -> B64.ilog2 q = k.
Proof.
  intros L U.
  assert (Hq : 0 < q) by (pose proof (pow2_pos k); lra).
  destruct (ilog2_spec q Hq) as [L' U'].
  destruct (Z.lt_trichotomy (B64.ilog2 q) k) as [C|[C|C]]; [|exact C|].
  - assert (B64.pow2 (B64.ilog2 q + 1) <= B64.pow2 k) by (apply pow2_le; lia).
    lra.
  - assert (B64.pow2 (k + 1) <= B64.pow2 (B64.ilog2 q)) by (apply pow2_le; lia).
    lra.
Qed.

Lemma ilog2_mono (p q : Q) :
  0 < p -> p <= q -> (B64.ilog2 p <= B64.ilog2 q)%Z.
Proof.
  intros Hp Hpq.
  destruct (ilog2_spec p Hp) as [L1 U1].
  destruct (ilog2_spec q) as [L2 U2]; [lra|].
  destruct (Z.le_gt_cases (B64.ilog2 p) (B64.ilog2 q)) as [C|C]; [exact C|].
  assert (B64.pow2 (B64.ilog2 q + 1) <= B64.pow2 (B64.ilog2 p))
    by (apply pow2_le; lia).
  lra.
Qed.

(** * Rounding to the nearest integer, ties to even *)

Lemma rne_cases (x : Q) :
  (B64.rne x = Qfloor x /\ x - inject_Z (Qfloor x) <= 1 # 2)
  \/ (B64.rne x = (Qfloor x + 1)%Z /\ 1 # 2 <= x - inject_Z (Qfloor x)).
Proof.
  unfold B64.rne.
  destruct (Qcompare_spec (x - inject_Z (Qfloor x)) (1 # 2)) as [E|E|E].
  - destruct (Z.even (Qfloor x)); [left|right]; split; try reflexivity;
      rewrite E; apply Qle_refl.
  - left. split; [reflexivity|now apply Qlt_le_weak].
  - right. split; [reflexivity|now apply Qlt_le_weak].
Qed.

Lemma floor_bounds (x : Q) :
  inject_Z (Qfloor x) <= x /\ x < inject_Z (Qfloor x) + 1.
Proof.
  split; [apply Qfloor_le|].
  pose proof (Qlt_floor x) as H. rewrite inject_Z_plus in H. exact H.
Qed.

Lemma rne_close (x : Q) :
  x - (1 # 2) <= inject_Z (B64.rne x) /\ inject_Z (B64.rne x) <= x + (1 # 2).
Proof.
  destruct (floor_bounds x) as [L U].
  destruct (rne_cases x) as [[-> H]|[-> H]].
  - split; lra.
  - rewrite inject_Z_plus. change (inject_Z 1) with 1. split; lra.
Qed.

Lemma rne_int (z : Z) : B64.rne (inject_Z z) = z.
Proof.
  unfold B64.rne. rewrite Qfloor_Z.
  destruct (Qcompare_spec (inject_Z z - inject_Z z) (1 # 2)) as [E|E|E].
  - exfalso. lra.
  - reflexivity.
  - exfalso. lra.
Qed.

Lemma rne_mono (x y : Q) : x <= y -> (B64.rne x <= B64.rne y)%Z.
Proof.
  intros H.
  pose proof (Qfloor_resp_le _ _ H) as F.
  destruct (Z.eq_dec (Qfloor x) (Qfloor y)) as [E|N].
  - unfold B64.rne. rewrite <- E.
    destruct (Qcompare_spec (x - inject_Z (Qfloor x)) (1 # 2)) as [E1|E1|E1];
      destruct (Qcompare_spec (y - inject_Z (Qfloor x)) (1 # 2))
        as [E2|E2|E2];
      try lia; try (exfalso; lra);
      destruct (Z.even (Qfloor x)); lia.
  - destruct (rne_cases x) as [[-> _]|[-> _]];
      destruct (rne_cases y) as [[-> _]|[-> _]]; lia.
Qed.

Lemma rne_le_int (x : Q) (z : Z) : x <= inject_Z z -> (B64.rne x <= z)%Z.
Proof. intros H. rewrite <- (rne_int z). now apply rne_mono. Qed.

Lemma rne_ge_int (x : Q) (z : Z) : inject_Z z <= x -> (z <= B64.rne x)%Z.
Proof. intros H. rewrite <- (rne_int z). now apply rne_mono. Qed.

(** * Rounding a positive rational to 53 bits *)

Lemma qexp_spec (q : Q) :
  0 < q ->
  (-1074 <= B64.qexp q)%Z
  /\ q < B64.pow2 (B64.qexp q + 53)
  /\ (B64.pow2 (-1022) <= q -> B64.pow2 (B64.qexp q + 52) <= q).
Proof.
  intros Hq. destruct (ilog2_spec q Hq) as [L U]. unfold B64.qexp.
  split; [lia|]. split.
  - apply Qlt_le_trans with (B64.pow2 (B64.ilog2 q + 1)); [exact U|].
    apply pow2_le. lia.
  - intros N.
    assert ((-1022 <= B64.ilog2 q)%Z).
    { destruct (Z.le_gt_cases (-1022) (B64.ilog2 q)) as [C|C]; [exact C|].
      assert (B64.pow2 (B64.ilog2 q + 1) <= B64.pow2 (-1022))
        by (apply pow2_le; lia).
      lra. }
    replace (Z.max (B64.ilog2 q - 52) (-1074) + 52)%Z with (B64.ilog2 q)
      by lia.
    exact L.
Qed.

Lemma qexp_mono (p q : Q) :
  0 < p -> p <= q -> (B64.qexp p <= B64.qexp q)%Z.
Proof.
  intros Hp H. pose proof (ilog2_mono p q Hp H). unfold B64.qexp. lia.
Qed.

Lemma scaled (q : Q) (e : Z) :
  q == q / B64.pow2 e * B64.pow2 e.
Proof. field. pose proof (pow2_pos e). lra. Qed.

Lemma rnd_pos_close (q : Q) :
  0 < q ->
  q - (1 # 2) * B64.pow2 (B64.qexp q) <= B64.rnd_pos q
  /\ B64.rnd_pos q <= q + (1 # 2) * B64.pow2 (B64.qexp q).
Proof.
  intros Hq. unfold B64.rnd_pos.
  set (e := B64.qexp q).
  pose proof (pow2_pos e) as P.
  destruct (rne_close (q / B64.pow2 e)) as [L U].
  pose proof (scaled q e) as S.
  split.
  - rewrite S at 1.
    setoid_replace (q / B64.pow2 e * B64.pow2 e - (1 # 2) * B64.pow2 e)
      with ((q / B64.pow2 e - (1 # 2)) * B64.pow2 e) by ring.
    apply Qmult_le_r; assumption.
  - rewrite S at 2.
    setoid_replace (q / B64.pow2 e * B64.pow2 e + (1 # 2) * B64.pow2 e)
      with ((q / B64.pow2 e + (1 # 2)) * B64.pow2 e) by ring.
    apply Qmult_le_r; assumption.
Qed.

Lemma rnd_pos_nonneg (q : Q) : 0 <= q -> 0 <= B64.rnd_pos q.
Proof.
  intros Hq. unfold B64.rnd_pos.
  apply Qmult_le_0_compat; [|apply Qlt_le_weak, pow2_pos].
  change 0 with (inject_Z 0). rewrite <- Zle_Qle. apply rne_ge_int.
  change (inject_Z 0) with 0.
  apply Qle_shift_div_l; [apply pow2_pos|]. lra.
Qed.

(** The lower end of the binade of a normal number is kept. *)
Lemma rnd_pos_ge_binade (q : Q) :
  B64.pow2 (-1022) <= q ->
  B64.pow2 (B64.qexp q + 52) <= B64.rnd_pos q.
Proof.
  intros N.
  assert (Hq : 0 < q) by (pose proof (pow2_pos (-1022)); lra).
  destruct (qexp_spec q Hq) as (E & _ & L). specialize (L N).
  unfold B64.rnd_pos. set (e := B64.qexp q) in *.
  rewrite pow2_add.
  rewrite (Qmult_comm (B64.pow2 e)).
  apply Qmult_le_r; [apply pow2_pos|].
  rewrite <- pow2_inject by lia. rewrite <- Zle_Qle.
  apply rne_ge_int. rewrite pow2_inject by lia.
  apply Qle_shift_div_l; [apply pow2_pos|].
  rewrite <- pow2_add. now rewrite Z.add_comm.
Qed.

(** The relative error of rounding a normal number, against the number and
    against its rounding. *)
Lemma rnd_pos_rel (q : Q) :
  B64.pow2 (-1022) <= q ->
  B64.rnd_pos q <= q * (1 + u) /\ q <= B64.rnd_pos q * (1 + u)
  /\ B64.pow2 (-1022) <= B64.rnd_pos q.
Proof.
  intros N.
  assert (Hq : 0 < q) by (pose proof (pow2_pos (-1022)); lra).
  destruct (qexp_spec q Hq) as (E & _ & L). specialize (L N).
  pose proof (rnd_pos_ge_binade q N) as G.
  destruct (rnd_pos_close q Hq) as [Hc1 Hc2].
  set (e := B64.qexp q) in *.
  assert (H : (1 # 2) * B64.pow2 e == u * B64.pow2 (e + 52)).
  { unfold u. rewrite <- pow2_add.
    replace (-53 + (e + 52))%Z with (-1 + e)%Z by lia.
    rewrite pow2_add. reflexivity. }
  assert (U0 : 0 < u) by apply pow2_pos.
  rewrite H in Hc1, Hc2.
  repeat split.
  - nra.
  - nra.
  - apply Qle_trans with (B64.pow2 (e + 52)); [|exact G].
    apply pow2_le. lia.
Qed.

Lemma rne_zero (x : Q) : x == 0 -> B64.rne x = 0%Z.
Proof.
  intros E.
  assert ((B64.rne x <= 0)%Z) by (apply rne_le_int; rewrite E; apply Qle_refl).
  assert ((0 <= B64.rne x)%Z) by (apply rne_ge_int; rewrite E; apply Qle_refl).
  lia.
Qed.

Lemma rnd_pos_zero (q : Q) : q == 0 -> B64.rnd_pos q == 0.
Proof.
  intros E. unfold B64.rnd_pos. generalize (B64.qexp q). intros e.
  rewrite rne_zero; [ring|].
  rewrite E. field. pose proof (pow2_pos e). lra.
Qed.

Lemma rnd_pos_mono_pos (p q : Q) :
  0 < p -> p <= q -> B64.rnd_pos p <= B64.rnd_pos q.
Proof.
  intros Hp H.
  assert (Hq : 0 < q) by lra.
  pose proof (qexp_mono p q Hp H) as M.
  destruct (Z.eq_dec (B64.qexp p) (B64.qexp q)) as [E|N].
  - unfold B64.rnd_pos. rewrite E.
    apply Qmult_le_r; [apply pow2_pos|].
    rewrite <- Zle_Qle. apply rne_mono.
    apply Qmult_le_r; [apply Qinv_lt_0_compat, pow2_pos|exact H].
  - assert (Lt : (B64.qexp p < B64.qexp q)%Z) by lia.
    destruct (ilog2_spec p Hp) as [_ Up].
    destruct (ilog2_spec q Hq) as [Lq _].
    unfold B64.qexp in Lt.
    assert (Eq : B64.qexp q = (B64.ilog2 q - 52)%Z) by (unfold B64.qexp; lia).
    assert (I : (B64.ilog2 p + 1 <= B64.ilog2 q)%Z) by lia.
    set (e1 := B64.qexp p). set (e2 := B64.qexp q).
    assert (E1 : (-1074 <= e1)%Z) by (unfold e1, B64.qexp; lia).
    assert (D : (0 <= e2 + 52 - e1)%Z) by (unfold e1, e2, B64.qexp; lia).
    apply Qle_trans with (B64.pow2 (e2 + 52)).
    + unfold B64.rnd_pos. fold e1.
      replace (e2 + 52)%Z with (e2 + 52 - e1 + e1)%Z by lia.
      rewrite pow2_add. apply Qmult_le_r; [apply pow2_pos|].
      rewrite <- (pow2_inject (e2 + 52 - e1)) by lia. rewrite <- Zle_Qle.
      apply rne_le_int. rewrite pow2_inject by lia.
      apply Qle_shift_div_r; [apply pow2_pos|].
      rewrite <- pow2_add.
      replace (e2 + 52 - e1 + e1)%Z with (B64.ilog2 q) by (unfold e2; lia).
      apply Qle_trans with (B64.pow2 (B64.ilog2 p + 1)); [lra|].
      apply pow2_le. lia.
    + unfold B64.rnd_pos. fold e2.
      rewrite pow2_add. rewrite (Qmult_comm (B64.pow2 e2)).
      apply Qmult_le_r; [apply pow2_pos|].
      rewrite <- (pow2_inject 52) by lia. rewrite <- Zle_Qle.
      apply rne_ge_int. rewrite pow2_inject by lia.
      apply Qle_shift_div_l; [apply pow2_pos|].
      rewrite <- pow2_add.
      replace (52 + e2)%Z with (B64.ilog2 q) by (unfold e2; lia).
      exact Lq.
Qed.

Lemma rnd_pos_mono (p q : Q) :
  0 <= p -> p <= q -> B64.rnd_pos p <= B64.rnd_pos q.
Proof.
  intros Hp H. destruct (Qlt_le_dec 0 p) as [P|P].
  - now apply rnd_pos_mono_pos.
  - rewrite (rnd_pos_zero p) by lra. apply rnd_pos_nonneg. lra.
Qed.

Lemma rnd_pos_eq (p q : Q) :
  0 <= p -> p == q -> B64.rnd_pos p == B64.rnd_pos q.
Proof.
  intros Hp E. apply Qle_antisym; apply rnd_pos_mono; lra.
Qed.

Lemma normal_nonneg (q : Q) : normal q -> 0 <= q.
Proof. intros [E|N]; [lra|]. pose proof (pow2_pos (-1022)). lra. Qed.

Lemma rnd_rel (q : Q) :
  normal q ->
  B64.rnd_pos q <= q * (1 + u) /\ q <= B64.rnd_pos q * (1 + u)
  /\ normal (B64.rnd_pos q).
Proof.
  intros [E|N].
  - pose proof (rnd_pos_zero q E) as Z.
    assert (0 < u) by apply pow2_pos.
    repeat split; try nra. now left.
  - destruct (rnd_pos_rel q N) as (A & B & C).
    repeat split; try assumption. now right.
Qed.

(** * Rounding to a Number *)

Lemma round_nonneg (q : Q) :
  0 <= q ->
  (B64.round q = B64.PosInf /\ B64.pow2 1024 <= B64.rnd_pos q)
  \/ (exists v, B64.round q = B64.Fin v /\ v == B64.rnd_pos q
                /\ v < B64.pow2 1024).
Proof.
  intros Hq. unfold B64.round.
  destruct (Qcompare_spec q 0) as [E|E|E].
  - right. exists 0. split; [reflexivity|].
    rewrite (rnd_pos_zero q E). split; [reflexivity|apply pow2_pos].
  - exfalso. lra.
  - cbv zeta. destruct (Qle_bool (B64.pow2 1024) (B64.rnd_pos q)) eqn:T.
    + left. split; [reflexivity|now apply Qle_bool_iff].
    + right. exists (Qred (B64.rnd_pos q)). split; [reflexivity|].
      split; [apply Qred_correct|]. rewrite Qred_correct.
      apply Qnot_le_lt. intros C. apply Qle_bool_iff in C. congruence.
Qed.

Lemma add_Fin (a b : Q) : B64.add (B64.Fin a) (B64.Fin b) = B64.round (a + b).
Proof. reflexivity. Qed.

Lemma sign_nonneg (a : Q) : 0 <= a -> B64.sign (B64.Fin a) = false.
Proof.
  intros H. cbn. destruct (Qcompare_spec a 0); try reflexivity. exfalso; lra.
Qed.

Lemma round_zero (q : Q) : q == 0 -> B64.round q = B64.Fin 0.
Proof.
  intros E. unfold B64.round.
  destruct (Qcompare_spec q 0); try reflexivity; exfalso; lra.
Qed.

Lemma mul_Fin (a b : Q) :
  0 <= a -> 0 <= b ->
  B64.mul (B64.Fin a) (B64.Fin b) = B64.round (a * b).
Proof.
  intros Ha Hb. unfold B64.mul.
  rewrite !sign_nonneg by assumption. cbn [B64.is_nan B64.is_inf orb xorb
    B64.is_zero B64.zero].
  destruct (Qeq_bool a 0) eqn:Ea.
  - apply Qeq_bool_iff in Ea. cbn [orb]. symmetry. apply round_zero.
    rewrite Ea. ring.
  - destruct (Qeq_bool b 0) eqn:Eb.
    + apply Qeq_bool_iff in Eb. cbn [orb]. symmetry. apply round_zero.
      rewrite Eb. ring.
    + reflexivity.
Qed.

Lemma div_Fin (a b : Q) :
  0 <= a -> 0 < b ->
  B64.div (B64.Fin a) (B64.Fin b) = B64.round (a / b).
Proof.
  intros Ha Hb. unfold B64.div.
  rewrite !sign_nonneg by lra. cbn [B64.is_nan B64.is_inf orb xorb
    B64.is_zero B64.zero].
  destruct (Qeq_bool b 0) eqn:Eb.
  - apply Qeq_bool_iff in Eb. exfalso. lra.
  - destruct (Qeq_bool a 0) eqn:Ea.
    + apply Qeq_bool_iff in Ea. symmetry. apply round_zero.
      rewrite Ea. field. lra.
    + reflexivity.
Qed.

Lemma mul_PosInf (b : Q) :
  0 < b -> B64.mul B64.PosInf (B64.Fin b) = B64.PosInf.
Proof.
  intros Hb. unfold B64.mul. rewrite sign_nonneg by lra.
  cbn [B64.is_nan B64.is_inf orb xorb B64.is_zero B64.sign B64.inf].
  destruct (Qeq_bool b 0) eqn:Eb; [|reflexivity].
  apply Qeq_bool_iff in Eb. exfalso. lra.
Qed.

Lemma round_finite (q b : Q) :
  0 <= q -> B64.rnd_pos q <= b -> b < B64.pow2 1024 ->
  exists v, B64.round q = B64.Fin v /\ v == B64.rnd_pos q.
Proof.
  intros Hq Hb Hlt.
  destruct (round_nonneg q Hq) as [[_ C]|(v & E & V & _)].
  - exfalso. lra.
  - now exists v.
Qed.

Lemma u_pos : 0 < u.
Proof. apply pow2_pos. Qed.

Lemma pw_ge_1 (k : nat) : 1 <= pw k.
Proof.
  induction k as [|k IH]; cbn [pw]; [lra|]. pose proof u_pos. nra.
Qed.

Lemma pw_add (a b : nat) : pw (a + b) == pw a * pw b.
Proof.
  induction a as [|a IH]; cbn [pw Nat.add]; [ring|]. rewrite IH. ring.
Qed.

Lemma pw_mono (a b : nat) : (a <= b)%nat -> pw a <= pw b.
Proof.
  intros H. replace b with (a + (b - a))%nat by lia. rewrite pw_add.
  pose proof (pw_ge_1 a). pose proof (pw_ge_1 (b - a)). nra.
Qed.

Lemma pw_181 : pw 181 <= Lam.
Proof. vm_compute. discriminate. Qed.

Lemma pw_Lam (k : nat) : (k <= 181)%nat -> pw k <= Lam.
Proof.
  intros H. apply Qle_trans with (pw 181); [now apply pw_mono|apply pw_181].
Qed.

Lemma normal_add (a b : Q) : normal a -> normal b -> normal (a + b).
Proof.
  intros Ha Hb. pose proof (normal_nonneg a Ha). pose proof (normal_nonneg b Hb).
  destruct Ha as [Ea|Na]; destruct Hb as [Eb|Nb].
  - left. lra.
  - right. lra.
  - right. lra.
  - right. lra.
Qed.

Lemma normal_mul (a g : Q) : normal a -> 1 <= g -> normal (a * g).
Proof.
  intros Ha Hg. pose proof (normal_nonneg a Ha).
  destruct Ha as [Ea|Na].
  - left. rewrite Ea. ring.
  - right. nra.
Qed.

Lemma normal_fl (a : Q) : normal a -> normal (fl a).
Proof. intros H. now destruct (rnd_rel a H) as (_ & _ & N). Qed.

Lemma nat_ge_1 (n : nat) : (1 <= n)%nat -> 1 <= inject_Z (Z.of_nat n).
Proof.
  intros H. change 1 with (inject_Z 1). rewrite <- Zle_Qle. lia.
Qed.

Section DcaBound.
Variables (c g : Q) (n : nat).
Hypothesis Hc : normal c.
Hypothesis Hg : 1 + rho <= g.
Hypothesis Hn : (1 <= n <= 60)%nat.

Let D := DQ c g.
Let L := LQ c g n.

Lemma g_ge_1 : 1 <= g.
Proof. pose proof (pow2_pos (-40)). unfold rho in Hg. lra. Qed.

Lemma g_ge_w : 1 + u <= g.
Proof.
  assert (u <= rho) by (apply pow2_le; lia). lra.
Qed.

Lemma normal_D (k : nat) : normal (D k).
Proof.
  induction k as [|k IH]; cbn [D DQ]; [now left|].
  apply normal_fl, normal_mul; [|apply g_ge_1].
  apply normal_fl, normal_add; assumption.
Qed.

Lemma normal_L (k : nat) : normal (L k).
Proof.
  induction k as [|k IH]; cbn [L LQ].
  - apply normal_fl, normal_mul; [assumption|]. apply nat_ge_1. lia.
  - apply normal_fl, normal_mul; [exact IH|apply g_ge_1].
Qed.

Lemma D_step (k : nat) :
  D (S k) <= (D k + c) * g * ((1 + u) * (1 + u)).
Proof.
  cbn [D DQ]. fold (D k).
  assert (N1 : normal (D k + c)) by (apply normal_add; [apply normal_D|exact Hc]).
  destruct (rnd_rel _ N1) as (A1 & _ & N2). fold (fl (D k + c)) in A1, N2.
  assert (N3 : normal (fl (D k + c) * g)) by (apply normal_mul; [exact N2|apply g_ge_1]).
  destruct (rnd_rel _ N3) as (A2 & _ & _).
  fold (fl (fl (D k + c) * g)) in A2.
  pose proof g_ge_1. pose proof u_pos.
  pose proof (normal_nonneg _ N1). pose proof (normal_nonneg _ N2).
  apply Qle_trans with (fl (D k + c) * g * (1 + u)); [exact A2|].
  setoid_replace (fl (D k + c) * g * (1 + u))
    with (fl (D k + c) * (g * (1 + u))) by ring.
  setoid_replace ((D k + c) * g * ((1 + u) * (1 + u)))
    with ((D k + c) * (1 + u) * (g * (1 + u))) by ring.
  apply Qmult_le_compat_r; [exact A1|]. nra.
Qed.

Lemma L_step (k : nat) : L k * g <= L (S k) * (1 + u).
Proof.
  cbn [L LQ]. fold (L k).
  assert (N : normal (L k * g)) by (apply normal_mul; [apply normal_L|apply g_ge_1]).
  now destruct (rnd_rel _ N) as (_ & A & _).
Qed.

Lemma L_start : c * inject_Z (Z.of_nat n) <= L 0 * (1 + u).
Proof.
  cbn [L LQ].
  assert (N : normal (c * inject_Z (Z.of_nat n))).
  { apply normal_mul; [assumption|]. apply nat_ge_1. lia. }
  now destruct (rnd_rel _ N) as (_ & A & _).
Qed.

Lemma Inv_step (k : nat) :
  (S k <= n)%nat -> Inv c g n k -> Inv c g n (S k).
Proof.
  intros Hk I. unfold Inv in I |- *. fold D L in I |- *.
  set (m := (n - S k)%nat) in *.
  replace (n - k)%nat with (S m) in I by lia.
  replace (3 * S m)%nat with (3 * m + 3)%nat in I by lia.
  rewrite pw_add in I. cbn [pw] in I.
  rewrite Nat2Z.inj_succ, <- Z.add_1_r, inject_Z_plus in I.
  change (inject_Z 1) with 1 in I.
  set (P := pw (3 * m)) in *. set (Ln := pw (3 * n)) in *.
  set (M := inject_Z (Z.of_nat m)) in *.
  pose proof (D_step k) as F1. pose proof (L_step k) as F2.
  set (X := D k) in *. set (X' := D (S k)) in *.
  set (Y := L k) in *. set (Y' := L (S k)) in *.
  assert (F4 : P * ((1 + u) * (1 + u)) <= Ln).
  { unfold P, Ln.
    apply Qle_trans with (pw (3 * m + 2)).
    - rewrite pw_add. cbn [pw]. apply Qle_lteq. right. ring.
    - apply pw_mono. lia. }
  pose proof g_ge_w as Gw. pose proof u_pos as U.
  assert (HX : 0 <= X) by apply normal_nonneg, normal_D.
  assert (HC : 0 <= c) by now apply normal_nonneg.
  assert (HP : 1 <= P) by apply pw_ge_1.
  assert (HL : 1 <= Ln) by apply pw_ge_1.
  assert (HM : 0 <= M).
  { unfold M. change 0 with (inject_Z 0). rewrite <- Zle_Qle. lia. }
  set (w := 1 + u) in *.
  assert (W : 1 < w) by (unfold w; lra).
  (* (a) *)
  assert (A : P * X' <= P * (w * w) * X * g + Ln * c * g).
  { apply Qle_trans with (P * ((X + c) * g * (w * w))).
    - apply Qmult_le_l; [lra|exact F1].
    - assert (0 <= (Ln - P * (w * w)) * (c * g)).
      { apply Qmult_le_0_compat; [lra|]. apply Qmult_le_0_compat; lra. }
      nra. }
  (* (b) *)
  assert (B : M * c * (Ln * w) <= M * c * Ln * g).
  { assert (0 <= (M * c * Ln) * (g - w)).
    { apply Qmult_le_0_compat; [|lra].
      apply Qmult_le_0_compat; [|lra]. apply Qmult_le_0_compat; lra. }
    nra. }
  (* (c) *)
  set (T := P * (w * w) * X * g + (M + 1) * c * Ln * g).
  assert (C : T * w <= Y' * w).
  { apply Qle_trans with (Y * g); [|exact F2].
    apply Qle_trans
      with ((P * ((1 + u) * ((1 + u) * ((1 + u) * 1))) * X
             + (M + 1) * c * (Ln * w)) * g).
    - unfold T, w. apply Qle_lteq. right. ring.
    - apply Qmult_le_r; [lra|exact I]. }
  assert (C' : T <= Y') by (apply Qmult_le_r with w; lra).
  apply Qle_trans with T; [|exact C'].
  unfold T. nra.
Qed.

Lemma Inv_one : Inv c g n 1.
Proof.
  unfold Inv. fold D L.
  pose proof (D_step 0) as F1. pose proof (L_step 0) as F2.
  pose proof L_start as F0.
  cbn [D DQ] in F1. fold (D 1) in F1.
  pose proof g_ge_1 as G1. pose proof u_pos as U.
  assert (HC : 0 <= c) by now apply normal_nonneg.
  destruct (Nat.eq_dec n 1) as [E|N].
  - replace (n - 1)%nat with 0%nat by lia.
    cbn [Nat.mul pw Z.of_nat]. change (inject_Z 0) with 0.
    assert (D 1 == L 1).
    { cbn [D L DQ LQ]. unfold fl.
      apply rnd_pos_eq.
      - apply Qmult_le_0_compat; [|lra]. apply rnd_pos_nonneg. lra.
      - assert (B64.rnd_pos (0 + c)
                == B64.rnd_pos (c * inject_Z (Z.of_nat n))) as ->.
        { apply rnd_pos_eq; [lra|]. rewrite E.
          change (inject_Z (Z.of_nat 1)) with 1. ring. }
        reflexivity. }
    setoid_replace (1 * D 1 + 0 * c * (pw (3 * n) * (1 + u))) with (D 1)
      by ring.
    rewrite H. apply Qle_refl.
  - set (Nq := inject_Z (Z.of_nat n)) in *.
    assert (HN : 2 <= Nq).
    { unfold Nq. change 2 with (inject_Z 2). rewrite <- Zle_Qle. lia. }
    replace (Z.of_nat (n - 1)) with (Z.of_nat n - 1)%Z by lia.
    unfold Zminus. rewrite inject_Z_plus. fold Nq.
    change (inject_Z (-1)) with (-1).
    assert (P1 : pw (3 * (n - 1)) * ((1 + u) * (1 + u)) <= Lam).
    { apply Qle_trans with (pw (3 * (n - 1) + 2)).
      - rewrite pw_add. cbn [pw]. apply Qle_lteq. right. ring.
      - apply pw_Lam. lia. }
    assert (P2 : pw (3 * n) * (1 + u) <= Lam).
    { apply Qle_trans with (pw (3 * n + 1)).
      - rewrite pw_add. cbn [pw]. apply Qle_lteq. right. ring.
      - apply pw_Lam. lia. }
    set (P := pw (3 * (n - 1))) in *. set (Ln := pw (3 * n)) in *.
    assert (HP : 1 <= P) by apply pw_ge_1.
    set (w := 1 + u) in *.
    set (X' := D 1) in *. set (Y0 := L 0) in *. set (Y' := L 1) in *.
    assert (HX' : 0 <= X') by apply normal_nonneg, normal_D.
    (* left-hand side is at most Lam * c * (g + N - 1) *)
    assert (A : P * X' + (Nq + -1) * c * (Ln * w)
                <= Lam * c * (g + Nq - 1)).
    { assert (A1 : P * X' <= P * (w * w) * (c * g)).
      { apply Qle_trans with (P * ((0 + c) * g * (w * w))).
        - apply Qmult_le_l; [lra|exact F1].
        - apply Qle_lteq. right. ring. }
      assert (A2 : P * (w * w) * (c * g) <= Lam * (c * g)).
      { apply Qmult_le_compat_r; [exact P1|]. nra. }
      assert (A3 : (Nq + -1) * c * (Ln * w) <= (Nq + -1) * c * Lam).
      { assert (0 <= ((Nq + -1) * c) * (Lam - Ln * w)).
        { apply Qmult_le_0_compat; [|lra]. apply Qmult_le_0_compat; lra. }
        nra. }
      nra. }
    (* and c * N * g <= Y' * w * w *)
    assert (B : c * Nq * g <= Y' * (w * w)).
    { assert (c * Nq * g <= Y0 * w * g).
      { apply Qmult_le_compat_r; [exact F0|lra]. }
      assert (Y0 * g * w <= Y' * w * w).
      { apply Qmult_le_compat_r; [exact F2|unfold w; lra]. }
      nra. }
    (* the constants *)
    assert (K : Lam * (w * w) * (g + Nq - 1) <= Nq * g).
    { unfold Lam, w, u, rho in *.
      set (a := B64.pow2 (-45)) in *. set (b := B64.pow2 (-53)) in *.
      set (r := B64.pow2 (-40)) in *.
      assert (Ea : a == 1 # 35184372088832) by reflexivity.
      assert (Eb : b == 1 # 9007199254740992) by reflexivity.
      assert (Er : r == 1 # 1099511627776) by reflexivity.
      set (kap := (1 + a) * ((1 + b) * (1 + b))) in *.
      assert (Hk1 : 1 <= kap) by (unfold kap; nra).
      assert (Hk2 : kap <= 1 + (3 # 35184372088832)) by (unfold kap; nra).
      assert (0 <= (g - (1 + r)) * (Nq - kap)).
      { apply Qmult_le_0_compat; lra. }
      assert (0 <= (Nq - 2) * (1 + r - kap)).
      { apply Qmult_le_0_compat; lra. }
      nra. }
    apply Qle_trans with (Lam * c * (g + Nq - 1)); [exact A|].
    assert (HY : 0 <= Y') by apply normal_nonneg, normal_L.
    assert (W2 : 0 < w * w) by (unfold w; nra).
    apply Qmult_le_r with (w * w); [exact W2|].
    apply Qle_trans with (c * Nq * g); [|exact B].
    assert (0 <= c * (Nq * g - Lam * (w * w) * (g + Nq - 1))).
    { apply Qmult_le_0_compat; lra. }
    nra.
Qed.

Lemma Inv_all (k : nat) : (1 <= k <= n)%nat -> Inv c g n k.
Proof.
  induction k as [|k IH]; intros Hk; [lia|].
  destruct k as [|k]; [apply Inv_one|].
  apply Inv_step; [lia|]. apply IH. lia.
Qed.

(** While nothing overflows the lump sum is at least the DCA value, at
    every month. *)
Lemma D_le_L (k : nat) : (k <= n)%nat -> D k <= L k.
Proof.
  intros Hk. destruct k as [|k].
  - cbn [D DQ]. apply normal_nonneg, normal_L.
  - pose proof (Inv_all (S k) ltac:(lia)) as I. unfold Inv in I. fold D L in I.
    pose proof (pw_ge_1 (3 * (n - S k))). pose proof (pw_ge_1 (3 * n)).
    pose proof u_pos.
    assert (0 <= D (S k)) by apply normal_nonneg, normal_D.
    assert (0 <= c) by now apply normal_nonneg.
    assert (0 <= inject_Z (Z.of_nat (n - S k))).
    { change 0 with (inject_Z 0). rewrite <- Zle_Qle. lia. }
    assert (0 <= inject_Z (Z.of_nat (n - S k)) * c * (pw (3 * n) * (1 + u))).
    { apply Qmult_le_0_compat; [|nra]. apply Qmult_le_0_compat; lra. }
    nra.
Qed.

(** What the next DCA value is computed from is at most the lump sum. *)
Lemma pre_le (k : nat) : (k < n)%nat -> fl (D k + c) <= L k.
Proof.
  intros Hk.
  assert (HC : 0 <= c) by now apply normal_nonneg.
  pose proof u_pos as U.
  destruct k as [|k].
  - cbn [D DQ L LQ]. unfold fl. apply rnd_pos_mono; [lra|].
    pose proof (nat_ge_1 n ltac:(lia)). nra.
  - pose proof (Inv_all (S k) ltac:(lia)) as I. unfold Inv in I. fold D L in I.
    assert (N1 : normal (D (S k) + c))
      by (apply normal_add; [apply normal_D|exact Hc]).
    destruct (rnd_rel _ N1) as (A1 & _ & _). fold (fl (D (S k) + c)) in A1.
    apply Qle_trans with ((D (S k) + c) * (1 + u)); [exact A1|].
    apply Qle_trans with
      (pw (3 * (n - S k)) * D (S k)
       + inject_Z (Z.of_nat (n - S k)) * c * (pw (3 * n) * (1 + u)));
      [|exact I].
    assert (1 + u <= pw (3 * (n - S k))).
    { apply Qle_trans with (pw 1); [cbn [pw]; lra|]. apply pw_mono. lia. }
    pose proof (pw_ge_1 (3 * n)).
    assert (0 <= D (S k)) by apply normal_nonneg, normal_D.
    pose proof (nat_ge_1 (n - S k) ltac:(lia)).
    assert (c * (1 + u) <= inject_Z (Z.of_nat (n - S k)) * c * (pw (3 * n) * (1 + u))).
    { assert (0 <= c * (1 + u) * (inject_Z (Z.of_nat (n - S k)) * pw (3 * n) - 1)).
      { apply Qmult_le_0_compat; [nra|]. nra. }
      nra. }
    nra.
Qed.

End DcaBound.

Lemma round_nonneg_or_inf (q : Q) : 0 <= q -> nonneg_or_inf (B64.round q).
Proof.
  intros Hq. destruct (round_nonneg q Hq) as [[-> _]|(v & -> & E & _)].
  - now left.
  - right. exists v. split; [reflexivity|]. rewrite E.
    now apply rnd_pos_nonneg.
Qed.

Lemma add_nonneg_or_inf (x : B64.t) (c : Q) :
  nonneg_or_inf x -> 0 <= c -> nonneg_or_inf (B64.add x (B64.Fin c)).
Proof.
  intros [->|(v & -> & Hv)] Hc.
  - now left.
  - rewrite add_Fin. apply round_nonneg_or_inf. lra.
Qed.

Lemma mul_nonneg_or_inf (x : B64.t) (g : Q) :
  nonneg_or_inf x -> 0 < g -> nonneg_or_inf (B64.mul x (B64.Fin g)).
Proof.
  intros [->|(v & -> & Hv)] Hg.
  - left. now apply mul_PosInf.
  - rewrite mul_Fin by lra. apply round_nonneg_or_inf.
    apply Qmult_le_0_compat; lra.
Qed.

Section Loop64.
Import DCASimulator64.
Variables (c r : B64.t) (n : nat).

Lemma after64_shift (m : nat) (s : B64.t * B64.t) (k : nat) :
  after c r (S m) (step c r m s) k = after c r m s (S k).
Proof.
  induction k as [|k IH].
  - cbn [after]. now rewrite Nat.add_1_r.
  - cbn [after] in *. rewrite IH. f_equal. lia.
Qed.

Lemma loop64_length (left m : nat) (s : B64.t * B64.t) :
  List.length (loop c r left m s) = left.
Proof.
  revert m s. induction left as [|left IH]; intros m s; cbn [loop List.length].
  - reflexivity.
  - now rewrite IH.
Qed.

Lemma loop64_nth (left m : nat) (s : B64.t * B64.t) (k : nat) :
  (k < left)%nat ->
  nth_error (loop c r left m s) k
  = Some (point c (m + k) (after c r m s k)).
Proof.
  revert m s k. induction left as [|left IH]; intros m s k Hk; [lia|].
  destruct k as [|k]; cbn [loop nth_error].
  - now rewrite Nat.add_0_r.
  - rewrite IH by lia. rewrite after64_shift. do 2 f_equal. lia.
Qed.

End Loop64.

Section Track.
Import DCASimulator64.
Variables (c g : Q) (r : B64.t) (n : nat).
Hypothesis Hc : normal c.
Hypothesis Hg : 1 + rho <= g.
Hypothesis Hn : (1 <= n <= 60)%nat.
Hypothesis Hr : B64.add (B64.Fin 1) r = B64.Fin g.

Let st (k : nat) : B64.t * B64.t := after (B64.Fin c) r 0 (start (B64.Fin c) n) k.

Lemma st_succ (k : nat) :
  st (S k)
  = (B64.mul (B64.add (fst (st k)) (B64.Fin c)) (B64.Fin g),
     B64.mul (snd (st k)) (B64.Fin g)).
Proof.
  unfold st. cbn [after Nat.add].
  destruct (after (B64.Fin c) r 0 (start (B64.Fin c) n) k) as [d l].
  cbn [step Nat.ltb Nat.leb fst snd]. now rewrite Hr.
Qed.

Lemma tracked_all (k : nat) : (k <= n)%nat -> tracked c g r n k.
Proof.
  pose proof (g_ge_1 g Hg) as G1.
  assert (HC : 0 <= c) by now apply normal_nonneg.
  induction k as [|k IH]; intros Hk.
  - unfold tracked.
    cbn [after step Nat.ltb Nat.leb start fst snd]. unfold index.
    rewrite mul_Fin; [|exact HC|apply inject_Z_nat_nonneg].
    destruct (round_nonneg (c * inject_Z (Z.of_nat n))) as [[E _]|(v & E & V & B)].
    + apply Qmult_le_0_compat; [exact HC|apply inject_Z_nat_nonneg].
    + left. split; [exact E|]. right. exists 0. split; [reflexivity|lra].
    + right. exists 0, v. repeat split; try assumption; reflexivity.
  - specialize (IH ltac:(lia)). unfold tracked in *.
    cbv zeta in *. fold (st k) in IH. fold (st (S k)). rewrite st_succ.
    cbn [fst snd].
    destruct IH as [[El Nd]|(Dv & Lv & Ed & El & ED & EL & B)].
    + left. rewrite El. split; [apply mul_PosInf; lra|].
      apply mul_nonneg_or_inf; [|lra]. now apply add_nonneg_or_inf.
    + rewrite Ed, El.
      assert (HD : 0 <= Dv).
      { rewrite ED. apply normal_nonneg. now apply normal_D. }
      assert (HL : 0 <= Lv).
      { rewrite EL. apply normal_nonneg. now apply normal_L. }
      rewrite (mul_Fin Lv g) by lra.
      destruct (round_nonneg (Lv * g)) as [[E _]|(v & E & V & Bv)].
      * apply Qmult_le_0_compat; lra.
      * left. split; [exact E|].
        apply mul_nonneg_or_inf; [|lra]. apply add_nonneg_or_inf; [|exact HC].
        right. now exists Dv.
      * right.
        assert (P : B64.rnd_pos (Dv + c) <= Lv).
        { rewrite EL. apply Qle_trans with (fl (DQ c g k + c)).
          - apply Qle_lteq. right. apply rnd_pos_eq; [lra|].
            now rewrite ED.
          - apply pre_le; assumption. }
        rewrite add_Fin.
        destruct (round_finite (Dv + c) Lv) as (a & -> & Ea); [lra|exact P|exact B|].
        assert (Ha : 0 <= a) by (rewrite Ea; apply rnd_pos_nonneg; lra).
        rewrite (mul_Fin a g) by lra.
        assert (Q1 : B64.rnd_pos (a * g) <= v).
        { rewrite V. apply rnd_pos_mono.
          - apply Qmult_le_0_compat; lra.
          - apply Qmult_le_compat_r; [|lra]. rewrite Ea. exact P. }
        destruct (round_finite (a * g) v) as (d & -> & Edd);
          [apply Qmult_le_0_compat; lra|exact Q1|exact Bv|].
        exists d, v. repeat split; try assumption; try reflexivity.
        -- rewrite Edd. cbn [DQ]. unfold fl. apply rnd_pos_eq.
           ++ apply Qmult_le_0_compat; lra.
           ++ rewrite Ea.
              assert (B64.rnd_pos (Dv + c) == B64.rnd_pos (DQ c g k + c)) as ->.
              { apply rnd_pos_eq; [lra|]. now rewrite ED. }
              reflexivity.
        -- rewrite V. cbn [LQ]. unfold fl. apply rnd_pos_eq.
           ++ apply Qmult_le_0_compat; lra.
           ++ now rewrite EL.
Qed.

End Track.

Lemma Math_round_nonneg (q : Q) :
  0 <= q ->
  B64.Math_round (B64.Fin q) = B64.Fin (inject_Z (Qfloor (q + (1 # 2)))).
Proof.
  intros H. unfold B64.Math_round. rewrite sign_nonneg by exact H.
  now rewrite andb_false_r.
Qed.

Lemma leb_Fin (a b : Q) : a <= b -> B64.leb (B64.Fin a) (B64.Fin b) = true.
Proof.
  intros H. unfold B64.leb, B64.compare.
  destruct (Qcompare_spec a b); try reflexivity. exfalso. lra.
Qed.

Lemma Math_round_mono (a b : Q) :
  0 <= a -> a <= b ->
  B64.leb (B64.Math_round (B64.Fin a)) (B64.Math_round (B64.Fin b)) = true.
Proof.
  intros Ha H. rewrite !Math_round_nonneg by lra. apply leb_Fin.
  rewrite <- Zle_Qle. apply Qfloor_resp_le. lra.
Qed.

Lemma Math_round_le_PosInf (x : B64.t) :
  nonneg_or_inf x ->
  B64.leb (B64.Math_round x) (B64.Math_round B64.PosInf) = true.
Proof.
  intros [->|(v & -> & Hv)]; [reflexivity|].
  now rewrite Math_round_nonneg.
Qed.

(** The growth factor [1 + monthlyReturn] of an expected return of at
    least 2^-20 percent a year. *)
Lemma growth_factor (e : Q) :
  B64.pow2 (-20) <= e -> e < B64.pow2 1024 ->
  exists g,
    B64.add (B64.Fin 1) (DCASimulator64.monthlyReturn (B64.Fin e))
    = B64.Fin g
    /\ 1 + rho <= g.
Proof.
  intros Lo Hi. unfold DCASimulator64.monthlyReturn.
  assert (He : 0 < e) by (pose proof (pow2_pos (-20)); lra).
  rewrite div_Fin by lra.
  assert (B1 : B64.rnd_pos (B64.pow2 1024 / 100) < B64.pow2 1024)
    by (vm_compute; reflexivity).
  assert (L1 : B64.pow2 (-27) <= B64.rnd_pos (B64.pow2 (-20) / 100))
    by (vm_compute; discriminate).
  destruct (round_finite (e / 100) (B64.rnd_pos (B64.pow2 1024 / 100)))
    as (r1 & -> & E1).
  { apply Qle_shift_div_l; lra. }
  { apply rnd_pos_mono; [apply Qle_shift_div_l; lra|].
    apply Qmult_le_compat_r; [lra|]. discriminate. }
  { exact B1. }
  assert (R1 : B64.pow2 (-27) <= r1).
  { rewrite E1. apply Qle_trans with (B64.rnd_pos (B64.pow2 (-20) / 100));
      [exact L1|].
    apply rnd_pos_mono.
    - apply Qle_shift_div_l; [reflexivity|]. pose proof (pow2_pos (-20)). lra.
    - apply Qmult_le_compat_r; [lra|]. discriminate. }
  assert (R1' : r1 <= B64.rnd_pos (B64.pow2 1024 / 100)).
  { rewrite E1. apply rnd_pos_mono; [apply Qle_shift_div_l; lra|].
    apply Qmult_le_compat_r; [lra|]. discriminate. }
  assert (P1 : 0 < r1) by (pose proof (pow2_pos (-27)); lra).
  rewrite div_Fin by lra.
  set (M1 := B64.rnd_pos (B64.pow2 1024 / 100)) in *.
  assert (B2 : B64.rnd_pos (M1 / 12) < B64.pow2 1024)
    by (vm_compute; reflexivity).
  assert (L2 : B64.pow2 (-31) <= B64.rnd_pos (B64.pow2 (-27) / 12))
    by (vm_compute; discriminate).
  destruct (round_finite (r1 / 12) (B64.rnd_pos (M1 / 12))) as (r2 & -> & E2).
  { apply Qle_shift_div_l; lra. }
  { apply rnd_pos_mono; [apply Qle_shift_div_l; lra|].
    apply Qmult_le_compat_r; [lra|]. discriminate. }
  { exact B2. }
  assert (R2 : B64.pow2 (-31) <= r2).
  { rewrite E2. apply Qle_trans with (B64.rnd_pos (B64.pow2 (-27) / 12));
      [exact L2|].
    apply rnd_pos_mono.
    - apply Qle_shift_div_l; [reflexivity|]. pose proof (pow2_pos (-27)). lra.
    - apply Qmult_le_compat_r; [lra|]. discriminate. }
  assert (R2' : r2 <= B64.rnd_pos (M1 / 12)).
  { rewrite E2. apply rnd_pos_mono; [apply Qle_shift_div_l; lra|].
    apply Qmult_le_compat_r; [lra|]. discriminate. }
  set (M2 := B64.rnd_pos (M1 / 12)) in *.
  assert (P2 : 0 < r2) by (pose proof (pow2_pos (-31)); lra).
  rewrite add_Fin.
  assert (B3 : B64.rnd_pos (1 + M2) < B64.pow2 1024)
    by (vm_compute; reflexivity).
  assert (L3 : 1 + rho <= B64.rnd_pos (1 + B64.pow2 (-31)))
    by (vm_compute; discriminate).
  destruct (round_finite (1 + r2) (B64.rnd_pos (1 + M2))) as (g & -> & E3).
  { lra. }
  { apply rnd_pos_mono; lra. }
  { exact B3. }
  exists g. split; [reflexivity|].
  rewrite E3. apply Qle_trans with (B64.rnd_pos (1 + B64.pow2 (-31)));
    [exact L3|].
  apply rnd_pos_mono; [|lra]. pose proof (pow2_pos (-31)). lra.
Qed.

Lemma dca_le_lump_point (c e : Q) (n k : nat) :
  normal c -> B64.pow2 (-20) <= e -> e < B64.pow2 1024 ->
  (1 <= n <= 60)%nat -> (k <= n)%nat ->
  exists p,
    nth_error
      (DCASimulator64.generateDCAData (B64.Fin c)
         (DCASimulator64.monthlyReturn (B64.Fin e)) n) k = Some p
    /\ DCASimulator64.month p = k
    /\ B64.leb (DCASimulator64.dca p) (DCASimulator64.lumpSum p) = true.
Proof.
  intros Hc Lo Hi Hn Hk.
  destruct (growth_factor e Lo Hi) as (g & Hr & Hg).
  unfold DCASimulator64.generateDCAData.
  rewrite loop64_nth by lia. eexists. split; [reflexivity|].
  split; [reflexivity|].
  cbn [DCASimulator64.dca DCASimulator64.lumpSum DCASimulator64.point].
  destruct (tracked_all c g _ n Hc Hg Hn Hr k Hk)
    as [[El Nd]|(Dv & Lv & Ed & El & ED & EL & B)].
  - rewrite El. now apply Math_round_le_PosInf.
  - rewrite Ed, El. apply Math_round_mono.
    + rewrite ED. apply normal_nonneg. now apply normal_D.
    + rewrite ED, EL. apply D_le_L; assumption.
Qed.

(** * The order of Numbers *)

Lemma leb_ext (x y : B64.t) :
  wf x -> wf y -> (B64.leb x y = true <-> ext x <= ext y).
Proof.
  pose proof (pow2_pos 1024) as P.
  unfold B64.leb.
  destruct x as [a| | | |], y as [b| | | |]; cbn [wf ext B64.compare];
    intros Hx Hy; try contradiction;
    try (destruct (Qcompare_spec a b));
    try (destruct (Qcompare_spec a 0));
    try (destruct (Qcompare_spec 0 b));
    split; intros Hle; try reflexivity; try discriminate; try lra.
Qed.

Lemma wf_round (q : Q) : wf (B64.round q).
Proof.
  pose proof (pow2_pos 1024) as P. unfold B64.round.
  destruct (Qcompare_spec q 0) as [E|E|E]; cbv zeta.
  - cbn. lra.
  - destruct (Qle_bool (B64.pow2 1024) (B64.rnd_pos (- q))) eqn:T;
      [exact I|].
    destruct (Qeq_bool (B64.rnd_pos (- q)) 0); [exact I|].
    cbn [wf]. rewrite Qred_correct.
    assert (B64.rnd_pos (- q) < B64.pow2 1024).
    { apply Qnot_le_lt. intros C. apply Qle_bool_iff in C. congruence. }
    pose proof (rnd_pos_nonneg (- q) ltac:(lra)). lra.
  - destruct (Qle_bool (B64.pow2 1024) (B64.rnd_pos q)) eqn:T; [exact I|].
    cbn [wf]. rewrite Qred_correct.
    assert (B64.rnd_pos q < B64.pow2 1024).
    { apply Qnot_le_lt. intros C. apply Qle_bool_iff in C. congruence. }
    pose proof (rnd_pos_nonneg q ltac:(lra)). lra.
Qed.

Lemma ext_round (q : Q) : ext (B64.round q) == crnd q.
Proof.
  pose proof (pow2_pos 1024) as P. unfold B64.round, crnd.
  destruct (Qcompare_spec q 0) as [E|E|E]; cbv zeta.
  - cbn [ext]. rewrite (rnd_pos_zero q E). symmetry. apply Q.min_l. lra.
  - destruct (Qle_bool (B64.pow2 1024) (B64.rnd_pos (- q))) eqn:T.
    + apply Qle_bool_iff in T. cbn [ext]. now rewrite Q.min_r.
    + assert (B64.rnd_pos (- q) < B64.pow2 1024).
      { apply Qnot_le_lt. intros C. apply Qle_bool_iff in C. congruence. }
      rewrite Q.min_l by lra.
      destruct (Qeq_bool (B64.rnd_pos (- q)) 0) eqn:Z.
      * apply Qeq_bool_iff in Z. cbn [ext]. lra.
      * cbn [ext]. now rewrite Qred_correct.
  - destruct (Qle_bool (B64.pow2 1024) (B64.rnd_pos q)) eqn:T.
    + apply Qle_bool_iff in T. cbn [ext]. now rewrite Q.min_r.
    + assert (B64.rnd_pos q < B64.pow2 1024).
      { apply Qnot_le_lt. intros C. apply Qle_bool_iff in C. congruence. }
      rewrite Q.min_l by lra. cbn [ext]. now rewrite Qred_correct.
Qed.

Lemma crnd_nonneg (q : Q) : 0 <= q -> 0 <= crnd q.
Proof.
  intros H. unfold crnd. pose proof (pow2_pos 1024).
  destruct (Qcompare_spec q 0); try (exfalso; lra);
    apply Q.min_glb; try lra; apply rnd_pos_nonneg; lra.
Qed.

Lemma crnd_nonpos (q : Q) : q <= 0 -> crnd q <= 0.
Proof.
  intros H. unfold crnd. pose proof (pow2_pos 1024).
  destruct (Qcompare_spec q 0) as [E|E|E].
  - rewrite (rnd_pos_zero q E). rewrite Q.min_l; lra.
  - assert (0 <= Qmin (B64.rnd_pos (- q)) (B64.pow2 1024)).
    { apply Q.min_glb; try lra. apply rnd_pos_nonneg. lra. }
    lra.
  - exfalso. lra.
Qed.

Lemma crnd_mono (p q : Q) : p <= q -> crnd p <= crnd q.
Proof.
  intros H. pose proof (pow2_pos 1024) as P.
  destruct (Qlt_le_dec p 0) as [Hp|Hp]; destruct (Qlt_le_dec q 0) as [Hq|Hq].
  - unfold crnd.
    destruct (Qcompare_spec p 0); try (exfalso; lra).
    destruct (Qcompare_spec q 0); try (exfalso; lra).
    assert (B64.rnd_pos (- q) <= B64.rnd_pos (- p))
      by (apply rnd_pos_mono; lra).
    apply Qopp_le_compat. apply Q.min_le_compat_r. assumption.
  - apply Qle_trans with 0; [apply crnd_nonpos; lra|now apply crnd_nonneg].
  - exfalso. lra.
  - unfold crnd.
    destruct (Qcompare_spec p 0); try (exfalso; lra);
      destruct (Qcompare_spec q 0); try (exfalso; lra);
      apply Q.min_le_compat_r; apply rnd_pos_mono; lra.
Qed.

Lemma round_mono (p q : Q) :
  p <= q -> B64.leb (B64.round p) (B64.round q) = true.
Proof.
  intros H. apply leb_ext; try apply wf_round.
  rewrite !ext_round. now apply crnd_mono.
Qed.




















(** * Powers *)

Lemma pown_ge_1 (x : Q) (n : nat) : 1 <= x -> 1 <= pown x n.
Proof.
  intros H. induction n as [|n IH]; cbn [pown]; [lra|nra].
Qed.

Lemma pown_mono_base (x y : Q) (n : nat) :
  0 <= x -> x <= y -> pown x n <= pown y n.
Proof.
  intros Hx H. induction n as [|n IH]; cbn [pown]; [lra|].
  assert (0 <= pown x n).
  { clear IH. induction n as [|n IH]; cbn [pown]; [lra|].
    apply Qmult_le_0_compat; assumption. }
  nra.
Qed.

Lemma pown_mono_exp (x : Q) (m n : nat) :
  1 <= x -> (m <= n)%nat -> pown x m <= pown x n.
Proof.
  intros Hx H. induction H as [|n H IH]; [lra|].
  cbn [pown]. pose proof (pown_ge_1 x n Hx). nra.
Qed.


(** * The rates and horizons of the engine *)

Lemma rate_cases (rt : string) :
  exists rq gq,
    Engine64.monthlyReturn (Engine64.totalExpectedReturn rt) = B64.Fin rq
    /\ B64.add (B64.Fin 1) (B64.Fin rq) = B64.Fin gq
    /\ B64.pow2 (-8) <= rq /\ rq <= B64.pow2 (-6)
    /\ 1 + B64.pow2 (-8) <= gq /\ gq <= 1 + B64.pow2 (-6).
Proof.
  unfold Engine64.totalExpectedReturn.
  pose proof (selectedReturn_cases rt) as H. cbn [In] in H.
  destruct H as [<-|[<-|[<-|[<-|[]]]]];
    eexists; eexists;
    (split; [vm_compute; reflexivity|]);
    (split; [vm_compute; reflexivity|]);
    repeat split; vm_compute; discriminate.
Qed.

Ltac listed_index n :=
  right; split; [reflexivity|];
  exists n; cbn [In]; split; [tauto|]; split; vm_compute; reflexivity.

Lemma horizon64_cases (th : string) :
  (inherited Engine.timeMultipliers th = true
   /\ Engine64.totalMonths th = B64.NaN)
  \/ (inherited Engine.timeMultipliers th = false
      /\ exists n : nat,
           In n [3; 6; 12; 24; 60]%nat
           /\ Engine64.totalMonths th = index n
           /\ GoalTracker64.months th = index n).
Proof.
  unfold Engine64.totalMonths, GoalTracker64.months, Engine.timeMultiplier,
    GoalPanel.months, inherited, JS.get, Engine.timeMultipliers,
    GoalPanel.timeMultipliers, JS.own.
  destruct (String.eqb "3-months" th); [listed_index 3%nat|].
  destruct (String.eqb "6-months" th); [listed_index 6%nat|].
  destruct (String.eqb "1-year" th); [listed_index 12%nat|].
  destruct (String.eqb "2-years" th); [listed_index 24%nat|].
  destruct (String.eqb "5-years" th); [listed_index 60%nat|].
  destruct (existsb (String.eqb th) JS.Object_prototype).
  - left. split; reflexivity.
  - listed_index 12%nat.
Qed.

Lemma listed_bounds (n : nat) :
  In n [3; 6; 12; 24; 60]%nat -> (1 <= n <= 60)%nat.
Proof. cbn [In]. intros [<-|[<-|[<-|[<-|[<-|[]]]]]]; lia. Qed.

(** * The annuity factor the engine and the goal tracker compute *)

Section Factor.
Variable Math_pow : B64.t -> B64.t -> B64.t.
Hypothesis Hpow : accurate Math_pow.

Variables (g : Q) (n : nat).
Hypothesis Hg : 1 + B64.pow2 (-8) <= g <= 1 + B64.pow2 (-6).
Hypothesis Hn : (1 <= n <= 60)%nat.

Lemma pown_bounds : g <= pown g n /\ pown g n <= 3.
Proof.
  destruct Hg as [G1 G2]. pose proof (pow2_pos (-8)).
  split.
  - apply Qle_trans with (pown g 1); [cbn [pown]; lra|].
    apply pown_mono_exp; [lra|lia].
  - apply Qle_trans with (pown g 60).
    + apply pown_mono_exp; [lra|lia].
    + apply Qle_trans with (pown (1 + B64.pow2 (-6)) 60).
      * apply pown_mono_base; lra.
      * vm_compute. discriminate.
Qed.

(** [Math.pow(1 + monthlyReturn, months) - 1] is a finite positive
    Number. *)
Lemma factor :
  exists p Kq,
    Math_pow (B64.Fin g) (index n) = B64.Fin p
    /\ Qabs (p - pown g n) <= B64.pow2 (-50) * pown g n
    /\ B64.sub (B64.Fin p) (B64.Fin 1) = B64.Fin Kq
    /\ Kq == B64.rnd_pos (p - 1)
    /\ B64.pow2 (-9) <= Kq /\ Kq <= 4.
Proof.
  destruct Hg as [G1 G2]. pose proof (pow2_pos (-8)) as P8.
  pose proof (pow2_pos (-6)) as P6.
  assert (E6 : B64.pow2 (-6) == 1 # 64) by reflexivity.
  assert (E8 : B64.pow2 (-8) == 1 # 256) by reflexivity.
  assert (E9 : B64.pow2 (-9) == 1 # 512) by reflexivity.
  assert (E50 : B64.pow2 (-50) == 1 # 1125899906842624) by reflexivity.
  destruct (Hpow g n) as (p & Ep & Ap); [lra|lra|exact Hn|].
  destruct pown_bounds as [B1 B2].
  apply Qabs_Qle_condition in Ap. destruct Ap as [A1 A2].
  assert (L : 1 + B64.pow2 (-9) <= p) by nra.
  assert (U : p <= 3 + (1 # 2)) by nra.
  exists p.
  unfold B64.sub. change (B64.neg (B64.Fin 1)) with (B64.Fin (- (1))).
  rewrite add_Fin.
  assert (S : p + - (1) == p - 1) by ring.
  destruct (round_finite (p + - (1)) 4) as (Kq & EK & VK).
  - lra.
  - apply Qle_trans with (B64.rnd_pos 4).
    + apply rnd_pos_mono; lra.
    + vm_compute. discriminate.
  - reflexivity.
  - exists Kq. split; [exact Ep|]. split.
    { apply Qabs_Qle_condition. split; assumption. }
    split; [exact EK|].
    assert (VK' : Kq == B64.rnd_pos (p - 1)).
    { rewrite VK. apply rnd_pos_eq; lra. }
    split; [exact VK'|]. split.
    + rewrite VK'.
      apply Qle_trans with (B64.rnd_pos (B64.pow2 (-9))).
      * vm_compute. discriminate.
      * apply rnd_pos_mono; lra.
    + rewrite VK'. apply Qle_trans with (B64.rnd_pos 4).
      * apply rnd_pos_mono; lra.
      * vm_compute. discriminate.
Qed.

End Factor.

(** The correctly rounded power is accurate. *)
Lemma pow_cr_accurate : accurate pow_cr.
Proof.
  intros x n X1 X2 Hn. unfold pow_cr, index.
  rewrite Qfloor_Z. rewrite Qeq_bool_refl.
  assert ((0 <=? Z.of_nat n)%Z = true) as -> by (apply Z.leb_le; lia).
  cbn [andb]. rewrite Nat2Z.id.
  pose proof (pown_ge_1 x n X1) as P1.
  assert (P2 : pown x n <= pown 2 60).
  { apply Qle_trans with (pown x 60).
    - apply pown_mono_exp; [lra|lia].
    - apply pown_mono_base; lra. }
  assert (N : B64.pow2 (-1022) <= pown x n).
  { apply Qle_trans with 1; [|exact P1]. vm_compute. discriminate. }
  destruct (rnd_pos_rel _ N) as (A & B & _).
  destruct (round_finite (pown x n) (B64.rnd_pos (pown 2 60))) as (p & -> & V).
  - lra.
  - apply rnd_pos_mono; lra.
  - vm_compute. reflexivity.
  - exists p. split; [reflexivity|].
    assert (U : u == 1 # 9007199254740992) by reflexivity.
    assert (E50 : B64.pow2 (-50) == 1 # 1125899906842624) by reflexivity.
    rewrite <- V in A, B.
    apply Qabs_Qle_condition. split; nra.
Qed.



Lemma leb_trans_wf (x y z : B64.t) :
  wf x -> wf y -> wf z ->
  B64.leb x y = true -> B64.leb y z = true -> B64.leb x z = true.
Proof.
  intros Hx Hy Hz A B.
  apply leb_ext in A; try assumption. apply leb_ext in B; try assumption.
  apply leb_ext; try assumption. lra.
Qed.

Section Projection.
Variable Math_pow : B64.t -> B64.t -> B64.t.
Hypothesis Hpow : accurate Math_pow.

(** The projection as the two roundings it ends in, for a horizon that
    is listed or falls back. *)
Lemma projectedValue_shape (x : B64.t) (rt th : string) :
  inherited Engine.timeMultipliers th = false ->
  exists rq gq n p Kq,
    Engine64.monthlyReturn (Engine64.totalExpectedReturn rt) = B64.Fin rq
    /\ B64.add (B64.Fin 1) (B64.Fin rq) = B64.Fin gq
    /\ (B64.pow2 (-8) <= rq /\ rq <= B64.pow2 (-6))
    /\ (1 + B64.pow2 (-8) <= gq /\ gq <= 1 + B64.pow2 (-6))
    /\ In n [3; 6; 12; 24; 60]%nat
    /\ Engine64.totalMonths th = index n
    /\ GoalTracker64.months th = index n
    /\ Math_pow (B64.Fin gq) (index n) = B64.Fin p
    /\ Qabs (p - pown gq n) <= B64.pow2 (-50) * pown gq n
    /\ Kq == B64.rnd_pos (p - 1)
    /\ (B64.pow2 (-9) <= Kq /\ Kq <= 4)
    /\ B64.sub (B64.Fin p) (B64.Fin 1) = B64.Fin Kq
    /\ Engine64.projectedValue Math_pow x rt th
       = B64.Math_round
           (B64.div (B64.mul x (B64.Fin Kq)) (B64.Fin rq)).
Proof.
  intros Hth.
  destruct (rate_cases rt) as (rq & gq & Er & Eg & R1 & R2 & G1 & G2).
  destruct (horizon64_cases th) as [[Hi _]|[_ (n & Hn & En & Em)]];
    [congruence|].
  destruct (factor Math_pow Hpow gq n (conj G1 G2) (listed_bounds n Hn))
    as (p & Kq & Ep & Ap & EK & VK & K1 & K2).
  exists rq, gq, n, p, Kq.
  repeat split; try assumption.
  unfold Engine64.projectedValue, Engine64.futureValue.
  now rewrite Er, Eg, En, Ep, EK.
Qed.



End Projection.

Lemma eqb_pos (r : Q) : 0 < r -> B64.eqb (B64.Fin r) (B64.Fin 0) = false.
Proof.
  intros H. unfold B64.eqb, B64.compare.
  destruct (Qcompare_spec r 0); try reflexivity. exfalso. lra.
Qed.

Lemma div_le (a b c : Q) : 0 <= a -> a <= b -> 0 < c -> a / c <= b / c.
Proof.
  intros Ha H Hc. apply Qmult_le_compat_r; [exact H|].
  apply Qlt_le_weak, Qinv_lt_0_compat, Hc.
Qed.

Lemma div_nonneg (a c : Q) : 0 <= a -> 0 < c -> 0 <= a / c.
Proof. intros Ha Hc. apply Qle_shift_div_l; lra. Qed.

Section Trip.
Variables (rq Kq : Q).
Hypothesis Hr : B64.pow2 (-8) <= rq /\ rq <= B64.pow2 (-6).
Hypothesis HK : B64.pow2 (-9) <= Kq /\ Kq <= 4.

Lemma rq_pos : 0 < rq.
Proof. pose proof (pow2_pos (-8)). lra. Qed.

Lemma Kq_pos : 0 < Kq.
Proof. pose proof (pow2_pos (-9)). lra. Qed.

Lemma tripQ_mono (G G' : Q) :
  0 <= G -> G <= G' -> tripQ rq Kq G <= tripQ rq Kq G'.
Proof.
  intros H0 H. pose proof rq_pos. pose proof Kq_pos. unfold tripQ.
  assert (A0 : 0 <= G * rq) by (apply Qmult_le_0_compat; lra).
  assert (A : B64.rnd_pos (G * rq) <= B64.rnd_pos (G' * rq)).
  { apply rnd_pos_mono; [exact A0|]. apply Qmult_le_compat_r; lra. }
  pose proof (rnd_pos_nonneg _ A0) as A1.
  assert (B0 : 0 <= B64.rnd_pos (G * rq) / Kq) by now apply div_nonneg.
  assert (B : B64.rnd_pos (B64.rnd_pos (G * rq) / Kq)
              <= B64.rnd_pos (B64.rnd_pos (G' * rq) / Kq)).
  { apply rnd_pos_mono; [exact B0|]. now apply div_le. }
  pose proof (rnd_pos_nonneg _ B0) as B1.
  assert (Hc0 : 0 <= B64.rnd_pos (B64.rnd_pos (G * rq) / Kq) * Kq)
    by (apply Qmult_le_0_compat; lra).
  assert (C : B64.rnd_pos (B64.rnd_pos (B64.rnd_pos (G * rq) / Kq) * Kq)
              <= B64.rnd_pos (B64.rnd_pos (B64.rnd_pos (G' * rq) / Kq) * Kq)).
  { apply rnd_pos_mono; [exact Hc0|]. apply Qmult_le_compat_r; lra. }
  pose proof (rnd_pos_nonneg _ Hc0) as Hc1.
  apply rnd_pos_mono; [now apply div_nonneg|]. now apply div_le.
Qed.

Lemma tripQ_nonneg (G : Q) : 0 <= G -> 0 <= tripQ rq Kq G.
Proof.
  intros H0. pose proof rq_pos. pose proof Kq_pos. unfold tripQ.
  apply rnd_pos_nonneg, div_nonneg; [|assumption].
  apply rnd_pos_nonneg, Qmult_le_0_compat; [|lra].
  apply rnd_pos_nonneg, div_nonneg; [|assumption].
  apply rnd_pos_nonneg, Qmult_le_0_compat; lra.
Qed.

(** In the normal range the four roundings keep the goal within a
    relative distance of [6 u]. *)
Lemma tripQ_close (G : Q) :
  B64.pow2 (-1000) <= G -> G <= B64.pow2 1000 ->
  Qabs (tripQ rq Kq G - G) <= 6 * u * G.
Proof.
  intros L U. destruct Hr as [R1 R2], HK as [K1 K2].
  pose proof rq_pos as Rp. pose proof Kq_pos as Kp.
  pose proof u_pos as Up.
  assert (E8 : B64.pow2 (-8) == 1 # 256) by reflexivity.
  assert (E6 : B64.pow2 (-6) == 1 # 64) by reflexivity.
  assert (E9 : B64.pow2 (-9) == 1 # 512) by reflexivity.
  assert (Eu : u == 1 # 9007199254740992) by reflexivity.
  assert (G0 : 0 < G) by (pose proof (pow2_pos (-1000)); lra).
  unfold tripQ.
  set (q1 := G * rq).
  assert (N1 : B64.pow2 (-1022) <= q1).
  { apply Qle_trans with (B64.pow2 (-1000) * B64.pow2 (-8)).
    - rewrite <- pow2_add. apply pow2_le. lia.
    - unfold q1. apply Qle_trans with (G * B64.pow2 (-8)).
      + apply Qmult_le_compat_r; [exact L|]. rewrite E8. lra.
      + apply Qmult_le_l; [exact G0|exact R1]. }
  destruct (rnd_pos_rel q1 N1) as (A1 & A2 & A3).
  set (a := B64.rnd_pos q1) in *.
  assert (Pa : 0 < a) by (pose proof (pow2_pos (-1022)); lra).
  set (q2 := a / Kq).
  assert (Eq2 : q2 * Kq == a) by (unfold q2; field; lra).
  assert (N2 : B64.pow2 (-1022) <= q2).
  { unfold q2. apply Qle_shift_div_l; [exact Kp|].
    apply Qle_trans with (B64.pow2 (-1022) * 4).
    - apply Qmult_le_l; [apply pow2_pos|exact K2].
    - apply Qle_trans with (B64.pow2 (-1009)); [reflexivity || (vm_compute; discriminate)|].
      apply Qle_trans with (q1 / (1 + u)).
      + apply Qle_shift_div_l; [lra|].
        apply Qle_trans with (B64.pow2 (-1008)).
        * rewrite Eu. 
          assert (B64.pow2 (-1008) == 2 * B64.pow2 (-1009)).
          { rewrite <- (pow2_succ (-1009)). reflexivity. }
          pose proof (pow2_pos (-1009)). lra.
        * apply Qle_trans with (B64.pow2 (-1000) * B64.pow2 (-8)).
          -- rewrite <- pow2_add. apply pow2_le. lia.
          -- unfold q1. apply Qle_trans with (G * B64.pow2 (-8)).
             ++ apply Qmult_le_compat_r; [exact L|]. rewrite E8. lra.
             ++ apply Qmult_le_l; [exact G0|exact R1].
      + apply Qle_shift_div_r; lra. }
  destruct (rnd_pos_rel q2 N2) as (B1 & B2 & B3).
  set (b := B64.rnd_pos q2) in *.
  assert (Pb : 0 < b) by (pose proof (pow2_pos (-1022)); lra).
  set (q3 := b * Kq).
  (* q3 is within (1 + u) of a, and a within (1 + u) of q1 >= 2^-1008 *)
  assert (Q3lo : a <= q3 * (1 + u)).
  { unfold q3. rewrite <- Eq2.
    setoid_replace (b * Kq * (1 + u)) with (b * (1 + u) * Kq) by ring.
    apply Qmult_le_compat_r; lra. }
  assert (Q3hi : q3 <= a * (1 + u)).
  { unfold q3. rewrite <- Eq2.
    setoid_replace (q2 * Kq * (1 + u)) with (q2 * (1 + u) * Kq) by ring.
    apply Qmult_le_compat_r; lra. }
  assert (Q1lo : B64.pow2 (-1008) <= q1).
  { apply Qle_trans with (B64.pow2 (-1000) * B64.pow2 (-8)).
    - rewrite <- pow2_add. apply pow2_le. lia.
    - unfold q1. apply Qle_trans with (G * B64.pow2 (-8)).
      + apply Qmult_le_compat_r; [exact L|]. rewrite E8. lra.
      + apply Qmult_le_l; [exact G0|exact R1]. }
  assert (P1008 : B64.pow2 (-1008) == 16384 * B64.pow2 (-1022)).
  { change 16384 with (B64.pow2 14). rewrite <- pow2_add. reflexivity. }
  pose proof (pow2_pos (-1022)) as P1022.
  assert (N3 : B64.pow2 (-1022) <= q3) by nra.
  destruct (rnd_pos_rel q3 N3) as (Hc1 & Hc2 & Hc3).
  set (c := B64.rnd_pos q3) in *.
  set (q4 := c / rq).
  assert (Eq4 : q4 * rq == c) by (unfold q4; field; lra).
  assert (N4 : B64.pow2 (-1022) <= q4).
  { unfold q4. apply Qle_shift_div_l; [exact Rp|]. nra. }
  destruct (rnd_pos_rel q4 N4) as (D1 & D2 & _).
  set (x := B64.rnd_pos q4) in *.
  (* upper and lower chains *)
  set (w := 1 + u) in *.
  assert (W : 1 < w) by (unfold w; lra).
  assert (Hup : x * rq <= q1 * (w * w * w * w)).
  { apply Qle_trans with (q4 * w * rq).
    - apply Qmult_le_compat_r; lra.
    - setoid_replace (q4 * w * rq) with (q4 * rq * w) by ring.
      rewrite Eq4.
      apply Qle_trans with (q3 * w * w).
      + apply Qmult_le_compat_r; lra.
      + apply Qle_trans with (a * w * w * w).
        * setoid_replace (q3 * w * w) with (q3 * (w * w)) by ring.
          setoid_replace (a * w * w * w) with (a * w * (w * w)) by ring.
          apply Qmult_le_compat_r; [exact Q3hi|nra].
        * setoid_replace (a * w * w * w) with (a * (w * w * w)) by ring.
          setoid_replace (q1 * (w * w * w * w))
            with (q1 * w * (w * w * w)) by ring.
          apply Qmult_le_compat_r; [exact A1|nra]. }
  assert (Hlo : q1 <= x * rq * (w * w * w * w)).
  { apply Qle_trans with (a * w); [exact A2|].
    apply Qle_trans with (q3 * w * w).
    - apply Qmult_le_compat_r; lra.
    - apply Qle_trans with (c * w * w * w).
      + setoid_replace (q3 * w * w) with (q3 * (w * w)) by ring.
        setoid_replace (c * w * w * w) with (c * w * (w * w)) by ring.
        apply Qmult_le_compat_r; [exact Hc2|nra].
      + rewrite <- Eq4.
        setoid_replace (q4 * rq * w * w * w)
          with (q4 * (rq * (w * w * w))) by ring.
        setoid_replace (x * rq * (w * w * w * w))
          with (x * w * (rq * (w * w * w))) by ring.
        apply Qmult_le_compat_r; [exact D2|].
        apply Qmult_le_0_compat; [lra|nra]. }
  unfold q1 in Hup, Hlo.
  (* divide by rq *)
  assert (Xup : x <= G * (w * w * w * w)).
  { apply Qmult_le_r with rq; [exact Rp|].
    setoid_replace (G * (w * w * w * w) * rq) with (G * rq * (w * w * w * w))
      by ring. exact Hup. }
  assert (Xlo : G <= x * (w * w * w * w)).
  { apply Qmult_le_r with rq; [exact Rp|].
    setoid_replace (x * (w * w * w * w) * rq) with (x * rq * (w * w * w * w))
      by ring. exact Hlo. }
  assert (W4 : w * w * w * w <= 1 + 5 * u).
  { unfold w. rewrite Eu. vm_compute. discriminate. }
  assert (X0 : 0 <= x) by (apply rnd_pos_nonneg; lra).
  assert (Y1 : x <= G * (1 + 5 * u)).
  { apply Qle_trans with (G * (w * w * w * w)); [exact Xup|].
    apply Qmult_le_l; [exact G0|exact W4]. }
  assert (Y2 : G <= x * (1 + 5 * u)).
  { apply Qle_trans with (x * (w * w * w * w)); [exact Xlo|].
    destruct (Qlt_le_dec 0 x) as [Px|Px].
    - apply Qmult_le_l; [exact Px|exact W4].
    - assert (x == 0) by lra. rewrite H. lra. }
  assert (Y3 : x * (5 * u) <= G * (6 * u)).
  { rewrite Eu in *.
    assert (x * (5 * (1 # 9007199254740992))
            <= G * (1 + 5 * (1 # 9007199254740992))
               * (5 * (1 # 9007199254740992))).
    { apply Qmult_le_compat_r; [exact Y1|discriminate]. }
    lra. }
  apply Qabs_Qle_condition. split; lra.
Qed.

End Trip.

(** Rounding a value below a bound that is far from overflow. *)
Lemma round_below (q : Q) (k : Z) :
  0 <= q -> q <= B64.pow2 k -> (0 <= k < 1023)%Z ->
  exists v,
    B64.round q = B64.Fin v /\ v == B64.rnd_pos q
    /\ 0 <= v /\ v <= B64.pow2 (k + 1).
Proof.
  intros H0 H Hk.
  assert (N : B64.pow2 (-1022) <= B64.pow2 k) by (apply pow2_le; lia).
  destruct (rnd_pos_rel _ N) as (A & _ & _).
  assert (B : B64.rnd_pos q <= B64.pow2 (k + 1)).
  { apply Qle_trans with (B64.rnd_pos (B64.pow2 k));
      [now apply rnd_pos_mono|].
    apply Qle_trans with (B64.pow2 k * (1 + u)); [exact A|].
    rewrite pow2_succ. pose proof (pow2_pos k).
    assert (u <= 1) by (vm_compute; discriminate). nra. }
  destruct (round_finite q (B64.pow2 (k + 1))) as (v & E & V);
    [exact H0|exact B|apply pow2_lt; lia|].
  exists v. repeat split; try assumption.
  - rewrite V. now apply rnd_pos_nonneg.
  - now rewrite V.
Qed.

Section RoundTrip.
Variable Math_pow : B64.t -> B64.t -> B64.t.
Hypothesis Hpow : accurate Math_pow.

Lemma round_trip_shape (G : Q) (rt th : string) :
  inherited Engine.timeMultipliers th = false ->
  0 < G -> G <= B64.pow2 1000 ->
  exists rq Kq x,
    (B64.pow2 (-8) <= rq /\ rq <= B64.pow2 (-6))
    /\ (B64.pow2 (-9) <= Kq /\ Kq <= 4)
    /\ x == tripQ rq Kq G
    /\ Engine64.projectedValue Math_pow
         (GoalTracker64.requiredMonthly Math_pow (B64.Fin G) th
            (Engine64.totalExpectedReturn rt)) rt th
       = B64.Math_round (B64.Fin x).
Proof.
  intros Hth G0 GU.
  destruct (projectedValue_shape Math_pow Hpow (B64.Fin G) rt th Hth)
    as (rq & gq & n & p & Kq & Er & Eg & [R1 R2] & _ & _ & En & Em & Ep & _
        & _ & [K1 K2] & EK & _).
  pose proof (pow2_pos (-8)) as P8. pose proof (pow2_pos (-9)) as P9.
  assert (E6 : B64.pow2 (-6) == 1 # 64) by reflexivity.
  assert (E9 : B64.pow2 (-9) == 1 # 512) by reflexivity.
  assert (E8 : B64.pow2 (-8) == 1 # 256) by reflexivity.
  exists rq, Kq.
  unfold GoalTracker64.requiredMonthly, GoalTracker64.calculateRequiredMonthly.
  change (B64.div (B64.div (Engine64.totalExpectedReturn rt) (B64.Fin 100))
            (B64.Fin 12))
    with (Engine64.monthlyReturn (Engine64.totalExpectedReturn rt)).
  rewrite Er, Em, Eg, Ep, EK. rewrite eqb_pos by lra.
  rewrite (mul_Fin G rq) by lra.
  (* a *)
  destruct (round_below (G * rq) 994) as (a & -> & Va & A0 & A1).
  { apply Qmult_le_0_compat; lra. }
  { apply Qle_trans with (B64.pow2 1000 * B64.pow2 (-6)).
    - apply Qle_trans with (G * B64.pow2 (-6)).
      + apply Qmult_le_l; lra.
      + apply Qmult_le_compat_r; lra.
    - rewrite <- pow2_add. apply pow2_le. lia. }
  { lia. }
  rewrite (div_Fin a Kq) by lra.
  (* b *)
  destruct (round_below (a / Kq) 1004) as (b & -> & Vb & B0 & B1).
  { apply div_nonneg; lra. }
  { apply Qle_shift_div_r; [lra|].
    apply Qle_trans with (B64.pow2 1004 * B64.pow2 (-9)).
    - rewrite <- pow2_add. exact A1.
    - apply Qmult_le_l; [apply pow2_pos|lra]. }
  { lia. }
  destruct (projectedValue_shape Math_pow Hpow (B64.Fin b) rt th Hth)
    as (rq' & gq' & n' & p' & Kq' & Er' & Eg' & _ & _ & _ & En' & _ & Ep' & _
        & _ & _ & EK' & ->).
  assert (rq' = rq) by congruence. subst rq'.
  assert (gq' = gq) by congruence. subst gq'.
  assert (Kq' = Kq) by congruence. subst Kq'.
  rewrite (mul_Fin b Kq) by lra.
  (* c *)
  destruct (round_below (b * Kq) 1007) as (c & -> & Vc & Hc0 & Hc1).
  { apply Qmult_le_0_compat; lra. }
  { apply Qle_trans with (B64.pow2 1005 * 4).
    - apply Qle_trans with (b * 4).
      + rewrite (Qmult_comm b Kq), (Qmult_comm b 4).
        apply Qmult_le_compat_r; lra.
      + apply Qmult_le_compat_r; [exact B1|discriminate].
    - change 4 with (B64.pow2 2). rewrite <- pow2_add. apply pow2_le. lia. }
  { lia. }
  rewrite (div_Fin c rq) by lra.
  destruct (round_below (c / rq) 1016) as (x & -> & Vx & X0 & X1).
  { apply div_nonneg; lra. }
  { apply Qle_shift_div_r; [lra|].
    apply Qle_trans with (B64.pow2 1016 * B64.pow2 (-8)).
    - rewrite <- pow2_add. exact Hc1.
    - apply Qmult_le_l; [apply pow2_pos|lra]. }
  { lia. }
  exists x. repeat split; try assumption.
  unfold tripQ. rewrite Vx. apply rnd_pos_eq; [apply div_nonneg; lra|].
  assert (c == B64.rnd_pos (B64.rnd_pos (B64.rnd_pos (G * rq) / Kq) * Kq))
    as ->; [|reflexivity].
  rewrite Vc. apply rnd_pos_eq; [apply Qmult_le_0_compat; lra|].
  assert (b == B64.rnd_pos (B64.rnd_pos (G * rq) / Kq)) as ->; [|reflexivity].
  rewrite Vb. apply rnd_pos_eq; [apply div_nonneg; lra|].
  now rewrite Va.
Qed.

End RoundTrip.

Lemma floor_unique (y : Q) (k : Z) :
  inject_Z k <= y -> y < inject_Z k + 1 -> Qfloor y = k.
Proof.
  intros L U. destruct (floor_bounds y) as [A B].
  assert (inject_Z (Qfloor y) < inject_Z (k + 1)).
  { rewrite inject_Z_plus. change (inject_Z 1) with 1. lra. }
  assert (inject_Z k < inject_Z (Qfloor y + 1)).
  { rewrite inject_Z_plus. change (inject_Z 1) with 1. lra. }
  rewrite <- Zlt_Qlt in *. lia.
Qed.

Lemma round_trip_any (Math_pow : B64.t -> B64.t -> B64.t)
  (G : Q) (rt th : string) :
  accurate Math_pow ->
  inherited Engine.timeMultipliers th = false ->
  0 < G -> G <= B64.pow2 1000 ->
  exists z : Z,
    Engine64.projectedValue Math_pow
      (GoalTracker64.requiredMonthly Math_pow (B64.Fin G) th
         (Engine64.totalExpectedReturn rt)) rt th
    = B64.Fin (inject_Z z)
    /\ Qabs (inject_Z z - G) <= (1 # 2) + G * B64.pow2 (-50)
    /\ forall k : Z, G == inject_Z k -> G <= B64.pow2 49 -> z = k.
Proof.
  intros Hpow Hth G0 GU.
  destruct (round_trip_shape Math_pow Hpow G rt th Hth G0 GU)
    as (rq & Kq & x & Hr & HK & Ex & ->).
  assert (X0 : 0 <= x) by (rewrite Ex; apply tripQ_nonneg; try assumption; lra).
  rewrite Math_round_nonneg by exact X0.
  exists (Qfloor (x + (1 # 2))). split; [reflexivity|].
  destruct (floor_bounds (x + (1 # 2))) as [F1 F2].
  assert (Eu : u == 1 # 9007199254740992) by reflexivity.
  assert (E50 : B64.pow2 (-50) == 1 # 1125899906842624) by reflexivity.
  destruct (Qlt_le_dec G (B64.pow2 (-1000))) as [Small|Big].
  - assert (T : x <= 1 # 4).
    { rewrite Ex.
      apply Qle_trans with (tripQ rq Kq (B64.pow2 (-1000))).
      - apply tripQ_mono; try assumption; lra.
      - pose proof (tripQ_close rq Kq Hr HK (B64.pow2 (-1000))
                      ltac:(apply Qle_refl) ltac:(apply pow2_le; lia)) as C.
        apply Qabs_Qle_condition in C. destruct C as [_ C].
        assert (B64.pow2 (-1000) <= 1 # 8) by (vm_compute; discriminate).
        rewrite Eu in C. lra. }
    assert (Z0 : Qfloor (x + (1 # 2)) = 0%Z).
    { apply floor_unique; change (inject_Z 0) with 0; lra. }
    rewrite Z0. change (inject_Z 0) with 0.
    assert (B64.pow2 (-1000) <= 1 # 8) by (vm_compute; discriminate).
    split.
    + apply Qabs_Qle_condition. rewrite E50. split; lra.
    + intros k Ek _. 
      assert (0 < inject_Z k) by lra.
      change 0 with (inject_Z 0) in H0. rewrite <- Zlt_Qlt in H0.
      assert (1 <= inject_Z k).
      { change 1 with (inject_Z 1). rewrite <- Zle_Qle. lia. }
      exfalso. lra.
  - pose proof (tripQ_close rq Kq Hr HK G Big GU) as C.
    rewrite <- Ex in C. apply Qabs_Qle_condition in C. destruct C as [Hc1 Hc2].
    rewrite Eu in Hc1, Hc2.
    split.
    + apply Qabs_Qle_condition. rewrite E50. split; lra.
    + intros k Ek G49.
      assert (B64.pow2 49 == 562949953421312) by reflexivity.
      apply floor_unique; rewrite <- Ek; lra.
Qed.

Lemma normal_eq (p q : Q) : p == q -> normal p -> normal q.
Proof. intros E [Z|N]; [left|right]; now rewrite <- E. Qed.

Section Paid.
Import DCASimulator64.
Variables (c g : Q) (r : B64.t) (n : nat).
Hypothesis Hc : normal c.
Hypothesis Hg : 1 + rho <= g.
Hypothesis Hr : B64.add (B64.Fin 1) r = B64.Fin g.

(** The DCA value stays above what was paid in, with room for one
    rounding. *)
Lemma dca_above_paid (k : nat) :
  fst (after (B64.Fin c) r 0 (start (B64.Fin c) n) k) = B64.PosInf
  \/ exists d,
       fst (after (B64.Fin c) r 0 (start (B64.Fin c) n) k) = B64.Fin d
       /\ normal d /\ d < B64.pow2 1024
       /\ inject_Z (Z.of_nat k) * c * (1 + u) <= d.
Proof.
  pose proof (g_ge_1 g Hg) as G1.
  pose proof u_pos as U.
  assert (HC : 0 <= c) by now apply normal_nonneg.
  assert (G3 : (1 + u) * (1 + u) * (1 + u) <= g).
  { apply Qle_trans with (1 + rho); [|exact Hg].
    unfold u, rho. vm_compute. discriminate. }
  induction k as [|k IH].
  - right. exists 0. cbn [after step Nat.ltb Nat.leb start fst].
    split; [reflexivity|]. split; [now left|].
    split; [apply pow2_pos|].
    change (inject_Z (Z.of_nat 0)) with 0. lra.
  - rewrite (st_succ c g r n Hr k). cbn [fst].
    destruct IH as [->|(d & -> & Nd & Bd & Id)].
    + left. cbn [B64.add]. apply mul_PosInf. lra.
    + pose proof (normal_nonneg d Nd) as D0.
      rewrite add_Fin.
      assert (N1 : normal (d + c)) by now apply normal_add.
      destruct (rnd_rel _ N1) as (_ & A1 & N2).
      destruct (round_nonneg (d + c)) as [[-> _]|(a & -> & Ea & Ba)];
        [lra| |].
      * left. apply mul_PosInf. lra.
      * assert (Na : normal a) by (apply (normal_eq (B64.rnd_pos (d + c)));
                                    [now symmetry|exact N2]).
        pose proof (normal_nonneg a Na) as A0.
        rewrite mul_Fin by lra.
        assert (N3 : normal (a * g)) by now apply normal_mul.
        destruct (rnd_rel _ N3) as (_ & A2 & N4).
        destruct (round_nonneg (a * g)) as [[-> _]|(d' & -> & Ed & Bd')].
        -- apply Qmult_le_0_compat; lra.
        -- now left.
        -- right. exists d'. split; [reflexivity|].
           split; [apply (normal_eq (B64.rnd_pos (a * g)));
                   [now symmetry|exact N4]|].
           split; [exact Bd'|].
           rewrite <- Ed in A2. rewrite <- Ea in A1.
           pose proof (inject_Z_nat_nonneg k) as K0.
           rewrite Nat2Z.inj_succ, <- Z.add_1_r, inject_Z_plus.
           change (inject_Z 1) with 1.
           set (K := inject_Z (Z.of_nat k)) in *.
           assert (S1 : (K + 1) * c <= d + c).
           { assert (0 <= K * c * u)
               by (apply Qmult_le_0_compat; [apply Qmult_le_0_compat|]; lra).
             lra. }
           assert (S2 : (d + c) * ((1 + u) * (1 + u) * (1 + u))
                        <= a * (1 + u) * g).
           { apply Qle_trans with ((d + c) * g).
             - rewrite !(Qmult_comm (d + c)). apply Qmult_le_compat_r; lra.
             - apply Qmult_le_compat_r; lra. }
           assert (S3 : a * (1 + u) * g <= d' * (1 + u) * (1 + u)).
           { setoid_replace (a * (1 + u) * g) with (a * g * (1 + u)) by ring.
             apply Qmult_le_compat_r; lra. }
           assert (S4 : (d + c) * (1 + u) * ((1 + u) * (1 + u))
                        <= d' * ((1 + u) * (1 + u))).
           { setoid_replace ((d + c) * (1 + u) * ((1 + u) * (1 + u)))
               with ((d + c) * ((1 + u) * (1 + u) * (1 + u))) by ring.
             setoid_replace (d' * ((1 + u) * (1 + u)))
               with (d' * (1 + u) * (1 + u)) by ring.
             lra. }
           apply Qmult_le_r in S4; [|nra].
           apply Qle_trans with ((d + c) * (1 + u)); [|exact S4].
           apply Qmult_le_compat_r; lra.
Qed.

End Paid.

Lemma dca_ge_paid_point (c e : Q) (n k : nat) :
  normal c -> B64.pow2 (-20) <= e -> e < B64.pow2 1024 ->
  (k <= n)%nat ->
  exists p,
    nth_error
      (DCASimulator64.generateDCAData (B64.Fin c)
         (DCASimulator64.monthlyReturn (B64.Fin e)) n) k = Some p
    /\ B64.leb (B64.Math_round (DCASimulator64.contributions p))
         (DCASimulator64.dca p) = true.
Proof.
  intros Hc Lo Hi Hk.
  destruct (growth_factor e Lo Hi) as (g & Hr & Hg).
  pose proof (normal_nonneg c Hc) as HC.
  pose proof (inject_Z_nat_nonneg k) as K0.
  pose proof u_pos as U.
  unfold DCASimulator64.generateDCAData.
  rewrite loop64_nth by lia. eexists. split; [reflexivity|].
  cbn [DCASimulator64.dca DCASimulator64.contributions
         DCASimulator64.point Nat.add].
  unfold index. rewrite mul_Fin by assumption.
  destruct (dca_above_paid c g _ n Hc Hg Hr k) as [->|(d & -> & Nd & Bd & Id)].
  - apply Math_round_le_PosInf. apply round_nonneg_or_inf.
    apply Qmult_le_0_compat; assumption.
  - assert (N : normal (inject_Z (Z.of_nat k) * c)).
    { destruct k as [|k].
      - left. change (inject_Z (Z.of_nat 0)) with 0. ring.
      - apply (normal_eq (c * inject_Z (Z.of_nat (S k)))); [ring|].
        apply normal_mul; [exact Hc|]. apply nat_ge_1. lia. }
    destruct (rnd_rel _ N) as (A & _ & _).
    destruct (round_finite (inject_Z (Z.of_nat k) * c) d)
      as (v & -> & Ev); [apply Qmult_le_0_compat; assumption|lra|exact Bd|].
    apply Math_round_mono.
    + rewrite Ev. apply rnd_pos_nonneg. apply Qmult_le_0_compat; assumption.
    + rewrite Ev. lra.
Qed.

(** * The claims *)

(** C2 (as amended).  Over binary64, for each return the engine uses
    (any [riskTolerance]), each horizon it lists or falls back to, any
    [Math.pow] that is [accurate] and a goal amount from above 0 up to
    [2^1000]: projecting the required monthly amount of the goal, at the
    same return and horizon, gives a whole number within
    [1/2 + goal * 2^-50] of the goal, and a whole goal of at most [2^49]
    comes back exactly. *)
Theorem required_monthly_round_trip
  (Math_pow : B64.t -> B64.t -> B64.t) (goalAmount : Q)
  (riskTolerance timeHorizon : string) :
  accurate Math_pow ->
  inherited Engine.timeMultipliers timeHorizon = false ->
  0 < goalAmount -> goalAmount <= B64.pow2 1000 ->
  exists z : Z,
    Engine64.projectedValue Math_pow
      (GoalTracker64.requiredMonthly Math_pow (B64.Fin goalAmount)
         timeHorizon (Engine64.totalExpectedReturn riskTolerance))
      riskTolerance timeHorizon = B64.Fin (inject_Z z)
    /\ Qabs (inject_Z z - goalAmount)
       <= (1 # 2) + goalAmount * B64.pow2 (-50)
    /\ forall k : Z,
         goalAmount == inject_Z k -> goalAmount <= B64.pow2 49 -> z = k.
Proof.
  intros Hpow Hth H0 H1. now apply round_trip_any.
Qed.

Lemma required_monthly_round_trip_witness :
  exists z : Z,
    Engine64.projectedValue pow_cr
      (GoalTracker64.requiredMonthly pow_cr (B64.Fin 2000) "1-year"
         (Engine64.totalExpectedReturn "medium")) "medium" "1-year"
    = B64.Fin (inject_Z z)
    /\ Qabs (inject_Z z - 2000) <= (1 # 2) + 2000 * B64.pow2 (-50)
    /\ forall k : Z, 2000 == inject_Z k -> 2000 <= B64.pow2 49 -> z = k.
Proof.
  apply (required_monthly_round_trip pow_cr 2000 "medium" "1-year").
  - exact pow_cr_accurate.
  - reflexivity.
  - reflexivity.
  - vm_compute. discriminate.
Defined.

(** C2 as stated fails.  A goal of 4e18 at the high return over one year
    comes back as 4000000000000000512, and so it does for a [Math.pow]
    up to two units in the last place off the correctly rounded one. *)
Lemma required_monthly_round_trip_misses_large_goal :
  Forall
    (fun d : Z =>
       Engine64.projectedValue (pow_near d)
         (GoalTracker64.requiredMonthly (pow_near d)
            (B64.Fin 4000000000000000000) "1-year"
            (Engine64.totalExpectedReturn "high")) "high" "1-year"
       = B64.Fin 4000000000000000512)
    [-2; -1; 0; 1; 2]%Z.
Proof.
  repeat constructor; vm_compute; reflexivity.
Qed.

(** C3.  For monthlyBudget 50, riskTolerance medium and timeHorizon 1-year
    the recommendation is the medium template VOO 50 / AAPL 25 / MSFT 15 /
    BND 10 with totalExpectedReturn 9.8, and its projectedValue is
    round(50 * ((1 + 0.098/12)^12 - 1) / (0.098/12)), which is 628; the
    value before rounding lies between 627.6 and 627.7, away from a
    rounding boundary. *)
Theorem medium_one_year_scenario (goal : string) :
  let p := generatePortfolioRecommendation
             {| monthlyBudget := 50; riskTolerance := "medium";
                investmentGoal := goal; timeHorizon := "1-year" |} in
  template p = [("VOO", 50); ("AAPL", 25); ("MSFT", 15); ("BND", 10)]
  /\ totalExpectedReturn p = 9.8
  /\ projectedValue p
     = Num (inject_Z
              (round_Q (50 * ((1 + 0.098 / 12) ^ 12 - 1) / (0.098 / 12))))
  /\ projectedValue p = Num 628
  /\ exists q, futureValue 50 9.8 (totalMonths "1-year") = Num q
               /\ 627.6 < q /\ q < 627.7.
Proof.
  cbv zeta. repeat split; try (vm_compute; reflexivity).
  eexists. split; [vm_compute; reflexivity|]. split; reflexivity.
Qed.

(** C4.  Whatever the risk tolerance - low, medium, high or anything
    else - the allocation percentages of the recommended portfolio sum to
    exactly 100. *)
Theorem allocation_sums_to_100 (userData : BudgetRiskData) :
  allocationSum (investments (generatePortfolioRecommendation userData))
  == 100.
Proof.
  unfold generatePortfolioRecommendation.
  by_branch (selection_cases (riskTolerance userData)); reflexivity.
Qed.

(** C5 (as amended).  Over binary64, for a [customMonthly] that is +0 or
    at least the smallest normal number, an [expectedReturn] of at least
    [2^-20] percent and 1 to 60 months, the last point of
    [generateDCAData] is the one of month [months] and its [lumpSum] is
    [>=] its [dca] (both may be [Infinity]). *)
Theorem lump_sum_final_ge_dca_final
  (customMonthly expectedReturn : Q) (months : nat) :
  (customMonthly == 0 \/ B64.pow2 (-1022) <= customMonthly) ->
  B64.pow2 (-20) <= expectedReturn -> expectedReturn < B64.pow2 1024 ->
  (1 <= months <= 60)%nat ->
  exists p,
    nth_error
      (DCASimulator64.generateDCAData (B64.Fin customMonthly)
         (DCASimulator64.monthlyReturn (B64.Fin expectedReturn)) months)
      months = Some p
    /\ List.length
         (DCASimulator64.generateDCAData (B64.Fin customMonthly)
            (DCASimulator64.monthlyReturn (B64.Fin expectedReturn)) months)
       = S months
    /\ DCASimulator64.month p = months
    /\ B64.geb (DCASimulator64.lumpSum p) (DCASimulator64.dca p) = true.
Proof.
  intros Hc Lo Hi Hn.
  destruct (dca_le_lump_point customMonthly expectedReturn months months
              Hc Lo Hi Hn (le_n _)) as (p & E & Em & H).
  exists p. split; [exact E|]. split; [|split; [exact Em|exact H]].
  apply loop64_length.
Qed.

Lemma lump_sum_final_ge_dca_final_witness :
  exists p,
    nth_error
      (DCASimulator64.generateDCAData (B64.Fin 50)
         (DCASimulator64.monthlyReturn (B64.Fin 9.8)) 12) 12 = Some p
    /\ List.length
         (DCASimulator64.generateDCAData (B64.Fin 50)
            (DCASimulator64.monthlyReturn (B64.Fin 9.8)) 12) = 13%nat
    /\ DCASimulator64.month p = 12%nat
    /\ B64.geb (DCASimulator64.lumpSum p) (DCASimulator64.dca p) = true.
Proof.
  apply (lump_sum_final_ge_dca_final 50 9.8 12).
  - right. vm_compute. discriminate.
  - vm_compute. discriminate.
  - reflexivity.
  - lia.
Defined.

(** C5 as stated fails.  With [customMonthly] 2.0416666666666665 over 60
    months at an [expectedReturn] of 1e-14 percent the last point has
    [dca] 123 and [lumpSum] 122. *)
Lemma lump_sum_final_below_dca_final :
  option_map
    (fun p => (DCASimulator64.month p, DCASimulator64.dca p,
               DCASimulator64.lumpSum p))
    (nth_error
       (DCASimulator64.generateDCAData (B64.of_Q 2.0416666666666665)
          (DCASimulator64.monthlyReturn (B64.of_Q 1e-14)) 60) 60)
  = Some (60%nat, B64.Fin 123, B64.Fin 122)
  /\ B64.geb (B64.Fin 122) (B64.Fin 123) = false.
Proof.
  split; vm_compute; reflexivity.
Qed.






(** C8 (the defect).  The horizon label [constructor] is not one of the
    five listed labels, yet the recommendation does not project it over 12
    months: the table lookup finds the member of [Object.prototype], the
    month count is [NaN] and so is the projected value, where 12 months
    would give 628. *)
Theorem inherited_horizon_label_breaks_default :
  let userData := {| monthlyBudget := 50; riskTolerance := "medium";
                     investmentGoal := ""; timeHorizon := "constructor" |} in
  recognized timeMultipliers (timeHorizon userData) = false
  /\ totalMonths (timeHorizon userData) = NaN
  /\ projectedValue (generatePortfolioRecommendation userData) = NaN
  /\ projectFutureValue 50 9.8 (month_count 12) = Num 628.
Proof. cbv zeta. repeat split; vm_compute; reflexivity. Qed.

(** C9 (the defect).  With the horizon label [toString] a finite budget
    has a projected value that is not finite, although the selected
    return, 7.8, and the monthly return are not zero. *)
Theorem inherited_horizon_label_not_finite :
  let userData := {| monthlyBudget := 50; riskTolerance := "low";
                     investmentGoal := ""; timeHorizon := "toString" |} in
  let p := generatePortfolioRecommendation userData in
  JS.is_finite (monthlyBudget userData) = true
  /\ totalExpectedReturn p = 7.8
  /\ JS.is_zero (monthlyReturn (Num (totalExpectedReturn p))) = false
  /\ JS.is_finite (projectedValue p) = false.
Proof. cbv zeta. repeat split; vm_compute; reflexivity. Qed.

(** C10.  Two inputs that agree on monthlyBudget, riskTolerance and
    timeHorizon get the same PortfolioData, whatever their
    investmentGoal. *)
Theorem investmentGoal_is_ignored (u1 u2 : BudgetRiskData) :
  monthlyBudget u1 = monthlyBudget u2 ->
  riskTolerance u1 = riskTolerance u2 ->
  timeHorizon u1 = timeHorizon u2 ->
  generatePortfolioRecommendation u1 = generatePortfolioRecommendation u2.
Proof.
  intros Hb Hr Ht. unfold generatePortfolioRecommendation.
  now rewrite Hb, Hr, Ht.
Qed.

Lemma investmentGoal_is_ignored_witness :
  let u1 := {| monthlyBudget := 50; riskTolerance := "medium";
               investmentGoal := "retirement"; timeHorizon := "1-year" |} in
  let u2 := {| monthlyBudget := 50; riskTolerance := "medium";
               investmentGoal := "emergency"; timeHorizon := "1-year" |} in
  investmentGoal u1 <> investmentGoal u2
  /\ generatePortfolioRecommendation u1 = generatePortfolioRecommendation u2.
Proof.
  cbv zeta. split; [discriminate|].
  apply investmentGoal_is_ignored; reflexivity.
Defined.

(** * Further properties *)

(** * Geometric sums *)

(** * DCA closed forms *)


(** every point of the chart *)

Lemma dca_state_grows (c r L : Q) (k : nat) :
  0 <= c -> 0 <= r -> 0 <= L ->
  let s := after c r 0 (0, L) k in
  let s' := after c r 0 (0, L) (S k) in
  inject_Z (Z.of_nat k) * c <= fst s
  /\ fst s + c <= fst s' /\ 0 <= snd s /\ snd s <= snd s'.
Proof.
  intros Hc Hr HL. induction k as [|k IH]; cbn zeta in *.
  - cbn [after step Nat.ltb Nat.leb fst snd Nat.add].
    change (inject_Z (Z.of_nat 0)) with 0.
    assert (0 <= c * r) by (apply Qmult_le_0_compat; lra).
    assert (0 <= L * r) by (apply Qmult_le_0_compat; lra).
    repeat split; lra.
  - destruct IH as (H1 & H2 & H3 & H4).
    pose proof (inject_Z_nat_nonneg k) as Hk.
    assert (E : after c r 0 (0, L) (S (S k))
                = step c r (S (S k)) (after c r 0 (0, L) (S k)))
      by reflexivity.
    rewrite E. clear E.
    destruct (after c r 0 (0, L) (S k)) as [d l].
    destruct (after c r 0 (0, L) k) as [d0 l0].
    cbn [fst snd] in *. cbn [step Nat.ltb Nat.leb fst snd].
    rewrite inject_Z_succ.
    assert (0 <= inject_Z (Z.of_nat k) * c)
      by (apply Qmult_le_0_compat; lra).
    assert (0 <= (d + c) * r) by (apply Qmult_le_0_compat; lra).
    assert (0 <= l * r) by (apply Qmult_le_0_compat; lra).
    repeat split; lra.
Qed.

(** X13.  For a contribution >= 0 and a monthly rate >= 0 neither line of
    the chart falls from one month to the next. *)
Theorem dca_chart_never_falls (c r : Q) (n k : nat) :
  0 <= c -> 0 <= r -> (k < n)%nat ->
  exists p q,
    nth_error (generateDCAData c r n) k = Some p
    /\ nth_error (generateDCAData c r n) (S k) = Some q
    /\ (dca p <= dca q)%Z /\ (lumpSum p <= lumpSum q)%Z.
Proof.
  intros Hc Hr Hk. unfold generateDCAData.
  rewrite !loop_nth by lia. do 2 eexists.
  split; [reflexivity|]. split; [reflexivity|].
  assert (HL : 0 <= c * inject_Z (Z.of_nat n))
    by (apply Qmult_le_0_compat; [exact Hc | apply inject_Z_nat_nonneg]).
  destruct (dca_state_grows c r _ k Hc Hr HL) as (H1 & H2 & H3 & H4).
  cbn [point dca lumpSum]. split; apply round_Q_le; lra.
Qed.

Lemma dca_chart_never_falls_witness :
  0 <= 100 /\ 0 <= 0.01 /\ (3 < 12)%nat
  /\ exists p q,
       nth_error (generateDCAData 100 0.01 12) 3 = Some p
       /\ nth_error (generateDCAData 100 0.01 12) 4 = Some q
       /\ (dca p <= dca q)%Z /\ (lumpSum p <= lumpSum q)%Z.
Proof.
  split; [discriminate|]. split; [discriminate|]. split; [lia|].
  apply (dca_chart_never_falls 100 0.01 12 3); [discriminate|discriminate|lia].
Defined.

Lemma horizon_cases (th : string) :
  (inherited Engine.timeMultipliers th = true
   /\ Engine.totalMonths th = NaN
   /\ DCASimulator.months th = VObject
   /\ GoalPanel.months th = VObject)
  \/ (inherited Engine.timeMultipliers th = false
      /\ exists (n : nat) (e : Q),
           In n [3; 6; 12; 24; 60]%nat
           /\ Engine.totalMonths th = Num e
           /\ e == inject_Z (Z.of_nat n)
           /\ DCASimulator.months th = VNumber (month_count n)
           /\ GoalPanel.months th = VNumber (month_count n)).
Proof.
  unfold Engine.totalMonths, Engine.timeMultiplier, DCASimulator.months,
    GoalPanel.months, inherited, JS.get, Engine.timeMultipliers,
    DCASimulator.timeMultipliers, GoalPanel.timeMultipliers, JS.own.
  destruct (String.eqb "3-months" th); [listed_month 3%nat|].
  destruct (String.eqb "6-months" th); [listed_month 6%nat|].
  destruct (String.eqb "1-year" th); [listed_month 12%nat|].
  destruct (String.eqb "2-years" th); [listed_month 24%nat|].
  destruct (String.eqb "5-years" th); [listed_month 60%nat|].
  destruct (existsb (String.eqb th) Object_prototype).
  - left. repeat split; reflexivity.
  - listed_month 12%nat.
Qed.

Lemma recommendation_fields (userData : BudgetRiskData) :
  let p := generatePortfolioRecommendation userData in
  investments p = fst (fst (selection (riskTolerance userData)))
  /\ totalExpectedReturn p = selectedReturn (riskTolerance userData)
  /\ monthlyAmount p = monthlyBudget userData
  /\ timeframe p = timeHorizon userData
  /\ projectedValue p
     = projectFutureValue (monthlyBudget userData)
         (Num (selectedReturn (riskTolerance userData)))
         (totalMonths (timeHorizon userData)).
Proof.
  unfold generatePortfolioRecommendation, selectedReturn.
  destruct (selection (riskTolerance userData)) as [[inv ret] score].
  cbn. repeat split.
Qed.

Lemma chartData_listed (c ret : Q) (th : string) (n : nat) :
  DCASimulator.months th = VNumber (month_count n) ->
  DCAPanel.chartData c th ret
  = generateDCAData c (DCASimulator.monthlyReturn ret) n.
Proof.
  intros H. unfold DCAPanel.chartData. rewrite H.
  cbn [JS.to_number month_count]. now rewrite Qfloor_Z, Nat2Z.id.
Qed.

Lemma lastPoint_generateDCAData (c r : Q) (n : nat) :
  DCAPanel.lastPoint (generateDCAData c r n)
  = Some (point c n (after c r 0 (0, c * inject_Z (Z.of_nat n)) n)).
Proof.
  unfold DCAPanel.lastPoint.
  assert (L : List.length (generateDCAData c r n) = S n)
    by apply loop_length.
  assert (N : nth_error (generateDCAData c r n) n
              = Some (point c n
                        (after c r 0 (0, c * inject_Z (Z.of_nat n)) n))).
  { unfold generateDCAData. now rewrite loop_nth by lia. }
  destruct (generateDCAData c r n) as [|p0 rest]; [discriminate|].
  rewrite L. replace (S n - 1)%nat with n by lia. exact N.
Qed.

(** X16.  The summary of the DCA simulator reads the last point of the
    chart.  For a timeframe that names a member of [Object.prototype] the
    month count is no number, the chart has no point and the read fails;
    for every other timeframe the chart has at least 4 points and both
    final values exist. *)
Theorem dca_summary_needs_a_number (c ret : Q) (th : string) :
  (inherited DCASimulator.timeMultipliers th = true ->
   DCAPanel.chartData c th ret = []
   /\ DCAPanel.finalDCA (DCAPanel.chartData c th ret) = None
   /\ DCAPanel.finalLumpSum (DCAPanel.chartData c th ret) = None)
  /\ (inherited DCASimulator.timeMultipliers th = false ->
      exists d l,
        (4 <= List.length (DCAPanel.chartData c th ret))%nat
        /\ DCAPanel.finalDCA (DCAPanel.chartData c th ret) = Some d
        /\ DCAPanel.finalLumpSum (DCAPanel.chartData c th ret) = Some l).
Proof.
  assert (E : inherited DCASimulator.timeMultipliers th
              = inherited Engine.timeMultipliers th).
  { unfold inherited, DCASimulator.timeMultipliers, Engine.timeMultipliers,
      JS.own.
    repeat match goal with
           | |- context [String.eqb ?a th] => destruct (String.eqb a th)
           end; reflexivity. }
  rewrite E.
  destruct (horizon_cases th)
    as [(Hi & _ & Hm & _)|(Hi & n & e & Hn & _ & _ & Hm & _)]; rewrite Hi.
  - split; [intros _|discriminate].
    unfold DCAPanel.chartData. rewrite Hm. repeat split.
  - split; [discriminate|intros _].
    rewrite (chartData_listed c ret th n Hm).
    unfold DCAPanel.finalDCA, DCAPanel.finalLumpSum.
    rewrite lastPoint_generateDCAData. do 2 eexists.
    split; [|split; reflexivity].
    unfold generateDCAData. rewrite loop_length.
    cbn [In] in Hn. lia.
Qed.

(** * Engine *)

(** * Goal panel *)

(** * Heatmap *)

Lemma property_eqb_eq (a b : Heatmap.property) :
  Heatmap.property_eqb a b = true <-> a = b.
Proof.
  destruct a, b; cbn; try (split; [discriminate|congruence]).
  - rewrite String.eqb_eq. split; congruence.
  - rewrite String.eqb_eq. split; congruence.
  - tauto.
Qed.

Section GroupingFacts.

Variable key : Investment -> Heatmap.property.
Variable colour : nat -> Investment -> Heatmap.property.
Variable m : Q.

Lemma found_iff (k : Heatmap.property) (acc : list Heatmap.Slice) :
  Heatmap.found k acc = true <-> In k (map Heatmap.name acc).
Proof.
  unfold Heatmap.found. rewrite existsb_exists. split.
  - intros (item & Hin & He). apply property_eqb_eq in He. subst k.
    now apply in_map.
  - intros Hin. apply in_map_iff in Hin. destruct Hin as (item & <- & Hin).
    exists item. split; [exact Hin|]. now apply property_eqb_eq.
Qed.

Lemma bump_names (k : Heatmap.property) (inv : Investment) (acc : list
    Heatmap.Slice) :
  map Heatmap.name (Heatmap.bump m k inv acc) = map Heatmap.name acc.
Proof.
  induction acc as [|item rest IH]; cbn [Heatmap.bump map]; [reflexivity|].
  destruct (Heatmap.property_eqb (Heatmap.name item) k); cbn [map Heatmap.name].
  - reflexivity.
  - now rewrite IH.
Qed.

Lemma reducer_names (acc : list Heatmap.Slice) (inv : Investment) :
  map Heatmap.name (Heatmap.reducer key colour m acc inv)
  = if Heatmap.found (key inv) acc then map Heatmap.name acc
    else (map Heatmap.name acc ++ [key inv])%list.
Proof.
  unfold Heatmap.reducer. destruct (Heatmap.found (key inv) acc).
  - apply bump_names.
  - now rewrite map_app.
Qed.

Lemma fold_names (investments : list Investment) (acc : list Heatmap.Slice) :
  NoDup (map Heatmap.name acc) ->
  let out := fold_left (Heatmap.reducer key colour m) investments acc in
  NoDup (map Heatmap.name out)
  /\ (forall k, In k (map Heatmap.name out)
                <-> In k (map Heatmap.name acc) \/ In k (map key investments))
  /\ (List.length out <= List.length acc + List.length investments)%nat.
Proof.
  revert acc. induction investments as [|inv rest IH]; intros acc Hnd.
  - cbn. split; [exact Hnd|]. split; [tauto|lia].
  - cbn [fold_left]. cbn zeta.
    pose proof (reducer_names acc inv) as Hn.
    pose proof (found_iff (key inv) acc) as Hf.
    assert (Hnd' : NoDup (map Heatmap.name (Heatmap.reducer key colour m acc
        inv))).
    { rewrite Hn. destruct (Heatmap.found (key inv) acc); [exact Hnd|].
      apply NoDup_app; repeat split; try exact Hnd.
      - constructor; [intros []|constructor].
      - intros k Hk [<-|[]]. apply Hf in Hk. discriminate. }
    destruct (IH _ Hnd') as (I1 & I2 & I3). split; [exact I1|]. split.
    + intros k. rewrite I2, Hn. cbn [map In].
      destruct (Heatmap.found (key inv) acc).
      * assert (In (key inv) (map Heatmap.name acc)) by now apply Hf.
        split; [tauto|]. intros [?|[<-|?]]; tauto.
      * rewrite in_app_iff. cbn [In]. tauto.
    + assert (List.length (Heatmap.reducer key colour m acc inv)
              <= S (List.length acc))%nat.
      { rewrite <- (length_map Heatmap.name), Hn, <- (length_map Heatmap.name
          acc).
        destruct (Heatmap.found (key inv) acc); [lia|].
        rewrite length_app. cbn. lia. }
      cbn [List.length]. lia.
Qed.

End GroupingFacts.

(** X18.  No two groups of the sector view, or of the risk view, have the
    same name; the names are exactly the sectors, or risk levels, of the
    investments; and there are at most as many groups as investments. *)
Theorem groups_are_distinct (m : Q) (investments : list Investment) :
  let sectors := map Heatmap.name (Heatmap.sectorData m investments) in
  let risks := map Heatmap.name (Heatmap.riskData m investments) in
  NoDup sectors /\ NoDup risks
  /\ (forall k, In k sectors <-> In k (map Heatmap.sector investments))
  /\ (forall k, In k risks
                <-> In k (map (fun inv => Heatmap.Str (riskLevel inv))
                            investments))
  /\ (List.length (Heatmap.sectorData m investments)
      <= List.length investments)%nat
  /\ (List.length (Heatmap.riskData m investments)
      <= List.length investments)%nat.
Proof.
  cbv zeta. unfold Heatmap.sectorData, Heatmap.riskData, Heatmap.grouped.
  destruct (fold_names Heatmap.sector (fun n _ => Heatmap.color_at n) m
              investments [] (NoDup_nil _)) as (S1 & S2 & S3).
  destruct (fold_names (fun inv => Heatmap.Str (riskLevel inv))
              (fun _ inv => Heatmap.get Heatmap.RISK_COLORS (riskLevel inv))
              m investments [] (NoDup_nil _)) as (R1 & R2 & R3).
  cbn [List.length Nat.add map In] in *.
  repeat split; try assumption; intros H0.
  - apply S2 in H0. tauto.
  - apply S2. tauto.
  - apply R2 in H0. tauto.
  - apply R2. tauto.
Qed.

(** * Backtest *)

Section BacktestFacts.

Variable random : nat -> Q.
Variables (investments : list Investment) (startYear endYear : Z) (m : Q).

Lemma backtest_loop_nth (left k : nat) :
  (k < left)%nat ->
  nth_error
    (Backtest.loop random investments startYear m left 0 (0, 0)) k
  = Some (Backtest.point startYear k (Backtest.after random investments m k)).
Proof.
  assert (G : forall left j k s,
             (k < left)%nat ->
             nth_error (Backtest.loop random investments startYear m left j s) k
             = Some (Backtest.point startYear (j + k)
                       (nat_rect (fun _ => (Q * Q)%type)
                          (Backtest.step random investments m j s)
                          (fun i acc =>
                             Backtest.step random investments m (j + S i) acc)
                          k))).
  { clear left k. induction left as [|left IH]; intros j k s Hk; [lia|].
    destruct k as [|k]; cbn [Backtest.loop nth_error].
    - now rewrite Nat.add_0_r.
    - rewrite IH by lia. do 2 f_equal; [lia|].
      clear. induction k as [|k IHk]; cbn [nat_rect].
      + now rewrite Nat.add_1_r.
      + rewrite IHk. f_equal. lia. }
  intros Hk. rewrite G by exact Hk. reflexivity.
Qed.

Lemma backtest_length (left j : nat) (s : Q * Q) :
  List.length (Backtest.loop random investments startYear m left j s) = left.
Proof.
  revert j s. induction left as [|left IH]; intros j s;
    cbn [Backtest.loop List.length]; [reflexivity|]. now rewrite IH.
Qed.

End BacktestFacts.

Lemma Forall_nth_error {A : Type} (P : A -> Prop) (l : list A) :
  (forall k x, nth_error l k = Some x -> P x) -> Forall P l.
Proof.
  intros H. apply Forall_forall. intros x Hx.
  destruct (In_nth_error _ _ Hx) as [k Hk]. exact (H k x Hk).
Qed.

Lemma backtest_passes (startYear endYear : Z) :
  (startYear <= endYear)%Z ->
  (if (0 <=? Backtest.months startYear endYear)%Z
   then S (Z.to_nat (Backtest.months startYear endYear)) else O)
  = S (Z.to_nat (Backtest.months startYear endYear))
  /\ Z.of_nat (Z.to_nat (Backtest.months startYear endYear))
     = ((endYear - startYear) * 12)%Z.
Proof.
  intros H. unfold Backtest.months.
  destruct (Z.leb_spec 0 ((endYear - startYear) * 12)); [|lia].
  split; [reflexivity|lia].
Qed.

(** X22.  When the range is empty (the same start and end year) the
    backtest has a single point with nothing paid in, the return
    percentage is 0 / 0 = NaN, and the analysis reads Negative. *)
Theorem backtest_empty_range
  (random : nat -> Q) (investments : list Investment) (year : Z) (m : Q) :
  exists only,
    Backtest.generateHistoricalData random investments year year m = [only]
    /\ Backtest.finalValue random investments year year m = Some only
    /\ Backtest.returnPercentage only = NaN
    /\ Backtest.performance only = "Negative".
Proof.
  unfold Backtest.finalValue, Backtest.generateHistoricalData, Backtest.months.
  rewrite Z.sub_diag. cbn [Z.mul Z.leb Z.compare Z.to_nat Backtest.loop].
  eexists. repeat split.
Qed.



(** X24.  The blended return the backtest computes from a recommended
    portfolio is not the totalExpectedReturn the engine reports with it:
    8.76 against 7.8 for low, 10.395 against 9.8 for medium, 12.07 against
    12.1 for high; the two agree only for an unrecognized risk
    tolerance. *)
Theorem blended_return_differs (userData : BudgetRiskData) :
  let p := generatePortfolioRecommendation userData in
  let avg := Backtest.avgReturn (investments p) in
  let rt := riskTolerance userData in
  (rt = "low" -> avg == 8.76 /\ totalExpectedReturn p = 7.8)
  /\ (rt = "medium" -> avg == 10.395 /\ totalExpectedReturn p = 9.8)
  /\ (rt = "high" -> avg == 12.07 /\ totalExpectedReturn p = 12.1)
  /\ (avg == totalExpectedReturn p
      <-> rt <> "low" /\ rt <> "medium" /\ rt <> "high").
Proof.
  cbv zeta.
  destruct (recommendation_fields userData) as (-> & -> & _).
  unfold selectedReturn, selection.
  destruct (String.eqb_spec (riskTolerance userData) "low") as [->|Hl].
  { split; [intros _; split; reflexivity|].
    split; [discriminate|]. split; [discriminate|].
    split; [intros H; vm_compute in H; discriminate|].
    intros (H & _). now elim H. }
  destruct (String.eqb_spec (riskTolerance userData) "medium") as [->|Hm].
  { split; [discriminate|]. split; [intros _; split; reflexivity|].
    split; [discriminate|].
    split; [intros H; vm_compute in H; discriminate|].
    intros (_ & H & _). now elim H. }
  destruct (String.eqb_spec (riskTolerance userData) "high") as [->|Hh].
  { split; [discriminate|]. split; [discriminate|].
    split; [intros _; split; reflexivity|].
    split; [intros H; vm_compute in H; discriminate|].
    intros (_ & _ & H). now elim H. }
  split; [congruence|]. split; [congruence|]. split; [congruence|].
  split; [intros _; repeat split; assumption|intros _; reflexivity].
Qed.







(** X3.  The engine, the goal tracker and the DCA simulator read the same
    number of months from a horizon label: 3, 6, 12, 24 and 60 for the
    five listed labels (0.25, 0.5, 1, 2 and 5 years times 12 in the
    engine); any other label is either a member of [Object.prototype],
    for which the engine's count is [NaN] and the other two are an
    object, not a number, or falls back to 12 months in all three. *)
Theorem horizons_agree (th : string) :
  Forall (fun ln => months_agree (fst ln) (snd ln))
    [("3-months", 3%nat); ("6-months", 6%nat); ("1-year", 12%nat);
     ("2-years", 24%nat); ("5-years", 60%nat)]
  /\ (In th ["3-months"; "6-months"; "1-year"; "2-years"; "5-years"]
      \/ (inherited Engine.timeMultipliers th = true
          /\ Engine.totalMonths th = NaN
          /\ GoalPanel.months th = VObject
          /\ DCASimulator.months th = VObject)
      \/ (inherited Engine.timeMultipliers th = false
          /\ months_agree th 12)).
Proof.
  split.
  - repeat constructor.
  - unfold months_agree, Engine.totalMonths, Engine.timeMultiplier,
      DCASimulator.months, GoalPanel.months, inherited, JS.get,
      Engine.timeMultipliers, DCASimulator.timeMultipliers,
      GoalPanel.timeMultipliers, JS.own.
    destruct (String.eqb_spec "3-months" th); [left; cbn; tauto|].
    destruct (String.eqb_spec "6-months" th); [left; cbn; tauto|].
    destruct (String.eqb_spec "1-year" th); [left; cbn; tauto|].
    destruct (String.eqb_spec "2-years" th); [left; cbn; tauto|].
    destruct (String.eqb_spec "5-years" th); [left; cbn; tauto|].
    right. destruct (existsb (String.eqb th) Object_prototype).
    + left. repeat split; reflexivity.
    + right. repeat split; reflexivity.
Qed.

(** X11.  Over binary64, for a [customMonthly] that is +0 or at least the
    smallest normal number, an [expectedReturn] of at least [2^-20]
    percent and 1 to 60 months, every point of the chart, not only the
    last, has [lumpSum >= dca]. *)
Theorem lump_sum_line_above_dca_line
  (customMonthly expectedReturn : Q) (months : nat) :
  (customMonthly == 0 \/ B64.pow2 (-1022) <= customMonthly) ->
  B64.pow2 (-20) <= expectedReturn -> expectedReturn < B64.pow2 1024 ->
  (1 <= months <= 60)%nat ->
  Forall
    (fun p =>
       B64.geb (DCASimulator64.lumpSum p) (DCASimulator64.dca p) = true)
    (DCASimulator64.generateDCAData (B64.Fin customMonthly)
       (DCASimulator64.monthlyReturn (B64.Fin expectedReturn)) months).
Proof.
  intros Hc Lo Hi Hn. apply Forall_nth_error. intros k p Hk.
  assert (Hlt : (k < S months)%nat).
  { assert (N : nth_error
                  (DCASimulator64.generateDCAData (B64.Fin customMonthly)
                     (DCASimulator64.monthlyReturn (B64.Fin expectedReturn))
                     months) k <> None) by congruence.
    apply nth_error_Some in N.
    unfold DCASimulator64.generateDCAData in N.
    now rewrite loop64_length in N. }
  destruct (dca_le_lump_point customMonthly expectedReturn months k
              Hc Lo Hi Hn ltac:(lia)) as (p' & E & _ & H).
  rewrite E in Hk. now injection Hk as <-.
Qed.

Lemma lump_sum_line_above_dca_line_witness :
  Forall
    (fun p =>
       B64.geb (DCASimulator64.lumpSum p) (DCASimulator64.dca p) = true)
    (DCASimulator64.generateDCAData (B64.Fin 50)
       (DCASimulator64.monthlyReturn (B64.Fin 9.8)) 12).
Proof.
  apply (lump_sum_line_above_dca_line 50 9.8 12).
  - right. vm_compute. discriminate.
  - vm_compute. discriminate.
  - reflexivity.
  - lia.
Defined.

(** X12.  Over binary64, for a [customMonthly] that is +0 or at least the
    smallest normal number, an [expectedReturn] of at least [2^-20]
    percent and up to 60 months, the [dca] of every chart point is [>=]
    its [contributions], rounded by [Math.round]. *)
Theorem dca_at_least_contributions
  (customMonthly expectedReturn : Q) (months : nat) :
  (customMonthly == 0 \/ B64.pow2 (-1022) <= customMonthly) ->
  B64.pow2 (-20) <= expectedReturn -> expectedReturn < B64.pow2 1024 ->
  (months <= 60)%nat ->
  Forall
    (fun p =>
       B64.geb (DCASimulator64.dca p)
         (B64.Math_round (DCASimulator64.contributions p)) = true)
    (DCASimulator64.generateDCAData (B64.Fin customMonthly)
       (DCASimulator64.monthlyReturn (B64.Fin expectedReturn)) months).
Proof.
  intros Hc Lo Hi _. apply Forall_nth_error. intros k p Hk.
  assert (Hlt : (k < S months)%nat).
  { assert (N : nth_error
                  (DCASimulator64.generateDCAData (B64.Fin customMonthly)
                     (DCASimulator64.monthlyReturn (B64.Fin expectedReturn))
                     months) k <> None) by congruence.
    apply nth_error_Some in N.
    unfold DCASimulator64.generateDCAData in N.
    now rewrite loop64_length in N. }
  destruct (dca_ge_paid_point customMonthly expectedReturn months k
              Hc Lo Hi ltac:(lia)) as (p' & E & H).
  rewrite E in Hk. now injection Hk as <-.
Qed.

Lemma dca_at_least_contributions_witness :
  Forall
    (fun p =>
       B64.geb (DCASimulator64.dca p)
         (B64.Math_round (DCASimulator64.contributions p)) = true)
    (DCASimulator64.generateDCAData (B64.Fin 50)
       (DCASimulator64.monthlyReturn (B64.Fin 9.8)) 12).
Proof.
  apply (dca_at_least_contributions 50 9.8 12).
  - right. vm_compute. discriminate.
  - vm_compute. discriminate.
  - reflexivity.
  - lia.
Defined.

(** X21.  Whatever the random draws and the monthly amount, the backtest
    over the years from startYear to endYear >= startYear (years that
    print as plain digits and whose month counts are exact: below [2^31]
    in magnitude) has one point per month and one more; the first point
    is dated January of startYear with value and gains 0, and the last
    one January of endYear. *)
Theorem backtest_series_shape
  (random : nat -> Q) (investments : list Investment)
  (startYear endYear : Z) (m : Q) :
  (- 2 ^ 31 < startYear)%Z -> (startYear <= endYear)%Z ->
  (endYear < 2 ^ 31)%Z ->
  let data :=
    Backtest.generateHistoricalData random investments startYear endYear m in
  let n := Z.to_nat ((endYear - startYear) * 12) in
  List.length data = S n
  /\ (exists first,
        nth_error data 0 = Some first
        /\ Backtest.date first = Backtest.string_of_Z startYear ++ "-01"
        /\ Backtest.value first = 0%Z /\ Backtest.gains first = 0%Z)
  /\ (exists last,
        Backtest.finalValue random investments startYear endYear m = Some last
        /\ Backtest.date last = Backtest.string_of_Z endYear ++ "-01").
Proof.
  intros _ Hy _ data n. subst data n.
  destruct (backtest_passes startYear endYear Hy) as [Hp Hn].
  unfold Backtest.finalValue, Backtest.generateHistoricalData. rewrite Hp.
  fold (Backtest.months startYear endYear).
  set (n := Z.to_nat (Backtest.months startYear endYear)) in *.
  split; [apply backtest_length|]. split.
  - rewrite backtest_loop_nth by lia. eexists. split; [reflexivity|].
    cbn [Backtest.point Backtest.date Backtest.value Backtest.gains
        Backtest.after Backtest.step Nat.ltb Nat.leb
         fst snd].
    change (Z.of_nat 0) with 0%Z. rewrite Z.add_0_r.
    repeat split.
  - assert (L : List.length
                  (Backtest.loop random investments startYear m (S n) 0 (0, 0))
                = S n) by apply backtest_length.
    assert (N : nth_error
                  (Backtest.loop random investments startYear m (S n) 0 (0,
                      0)) n
                = Some (Backtest.point startYear n
                          (Backtest.after random investments m n)))
      by (apply backtest_loop_nth; lia).
    destruct (Backtest.loop random investments startYear m (S n) 0 (0, 0))
      as [|p0 rest]; [discriminate|].
    rewrite L. replace (S n - 1)%nat with n by lia. rewrite N.
    eexists. split; [reflexivity|]. cbn [Backtest.point Backtest.date].
    rewrite Hn, Z.div_mul, Z.mod_mul by lia.
    replace (startYear + (endYear - startYear))%Z with endYear by lia.
    reflexivity.
Qed.

Lemma backtest_series_shape_witness :
  let data :=
    Backtest.generateHistoricalData (fun _ => 0.5) [] 2022 2024 25 in
  List.length data = 25%nat
  /\ (exists first,
        nth_error data 0 = Some first
        /\ Backtest.date first = Backtest.string_of_Z 2022 ++ "-01"
        /\ Backtest.value first = 0%Z /\ Backtest.gains first = 0%Z)
  /\ (exists last,
        Backtest.finalValue (fun _ => 0.5) [] 2022 2024 25 = Some last
        /\ Backtest.date last = Backtest.string_of_Z 2024 ++ "-01").
Proof.
  apply (backtest_series_shape (fun _ => 0.5) [] 2022 2024 25);
    [reflexivity|discriminate|reflexivity].
Defined.
